(** * graphql-transport-ws: the [ws] adapter and the server core

    A shallow embedding of [src/use/ws.ts] (the adapter that binds the
    server core to a [ws] WebSocket server) and of the parts of the server
    core that the specification describes, with the properties the
    specification states about them.

    Layout: Part I holds the embedding (modules [Common], [UseWs],
    [Utils], [UseWsMore], [Server], [Fixtures]); Part II holds the lemmas
    and theorems. *)

From Stdlib Require Import ZArith QArith List Bool Ascii String Lia.
From stdpp Require Import base option list gmap strings.

Local Open Scope Z_scope.

(* ===================================================================== *)
(** * Part I: the embedding                                               *)
(* ===================================================================== *)

(** ** Common vocabulary ([../common]) *)
Module Common.

(** A JavaScript [Error] object; only its [message] is observed. *)
Record Error := mkError { message : string }.

(** A thrown or emitted JavaScript value: an [Error] instance, or any
    other value, kept as what [String(err)] renders it to. *)
Inductive Thrown :=
| ThrownError (e : Error)
| ThrownOther (rendered : string).

(** The state of a promise as an observer sees it. *)
Inductive Promise :=
| Pending
| Resolved
| Rejected (e : Error).

(** [CloseCode] members used by the adapter and the core. *)
Module CloseCode.
Definition InternalServerError : Z := 4500.
Definition BadRequest : Z := 4400.
Definition Unauthorized : Z := 4401.
Definition Forbidden : Z := 4403.
Definition ConnectionInitialisationTimeout : Z := 4408.
Definition SubscriberAlreadyExists : Z := 4409.
Definition TooManyInitialisationRequests : Z := 4429.
End CloseCode.

Definition GRAPHQL_TRANSPORT_WS_PROTOCOL : string := "graphql-transport-ws".

(** A JavaScript number, as far as [keepAlive > 0 && isFinite(keepAlive)]
    can tell numbers apart: a finite value, an infinity, or NaN. *)
Inductive JSNumber :=
| NFinite (q : Q)
| NInfinity
| NNegInfinity
| NNaN.

(** [n > 0] *)
Definition gt0 (n : JSNumber) : bool :=
  match n with
  | NFinite q => negb (Qle_bool q 0)
  | NInfinity => true
  | NNegInfinity => false
  | NNaN => false
  end.

(** [isFinite(n)] *)
Definition isFinite (n : JSNumber) : bool :=
  match n with
  | NFinite _ => true
  | _ => false
  end.

(** [a ?? b] where [b] is not nullish *)
Definition nullish {A} (a : option A) (b : A) : option A :=
  match a with
  | Some x => Some x
  | None => Some b
  end.

End Common.

(** ** [src/use/ws.ts] *)
Module UseWs.
Import Common.

(** [socket.readyState] *)
Inductive ReadyState := CONNECTING | OPEN | CLOSING | CLOSED.

Definition isOpen (rs : ReadyState) : bool :=
  match rs with OPEN => true | _ => false end.

(** Which callback a timer carries: the [setInterval] callback of
    [pingInterval], or the [setTimeout] callback of [pongWait]. *)
Inductive TimerKind := KPingInterval | KPongWait.

Record Timer := mkTimer {
  timerId : nat;
  timerKind : TimerKind;
  timerDelay : JSNumber
}.

(** What the adapter calls, in the order it calls it. *)
Inductive Call :=
| ConsoleError (text : string) (err : Thrown)
| SocketClose (code : Z) (reason : string)
| SocketTerminate
| SocketPing
| SocketSend (data : string)
| SetInterval (id : nat) (delay : JSNumber)
| SetTimeout (id : nat) (delay : JSNumber)
| ClearTimeout (id : nat)
| ClearInterval (id : nat)
| OncePong
| ServerOpened
| CoreClosed (code : Z) (reason : string)
| CoreMessage (data : string).

(** One connection: the socket as the adapter sees it, Node's timers of
    this connection, and the closure variables of the ['connection']
    handler.

    [timers] is the list of armed timers, oldest first. Both timers of a
    connection are armed with the same delay ([keepAlive]); Node keeps
    timers of equal delay in one list and serves it first in, first out,
    so the head of [timers] is the timer that fires next. *)
Record Conn := mkConn {
  readyState : ReadyState;
  timers : list Timer;
  nextTimer : nat;
  pongOnce : nat;              (* pending [socket.once('pong')] listeners *)
  closeOnce : bool;            (* [socket.once('close')] still registered *)
  errorOnce : bool;            (* [socket.once('error')] still registered *)
  pongWait : option nat;       (* [let pongWait] *)
  pingInterval : option nat;   (* [const pingInterval] *)
  calls : list Call
}.

Definition set_readyState (rs : ReadyState) (c : Conn) : Conn :=
  mkConn rs (timers c) (nextTimer c) (pongOnce c) (closeOnce c) (errorOnce c)
         (pongWait c) (pingInterval c) (calls c).
Definition set_timers (ts : list Timer) (c : Conn) : Conn :=
  mkConn (readyState c) ts (nextTimer c) (pongOnce c) (closeOnce c) (errorOnce c)
         (pongWait c) (pingInterval c) (calls c).
Definition set_nextTimer (n : nat) (c : Conn) : Conn :=
  mkConn (readyState c) (timers c) n (pongOnce c) (closeOnce c) (errorOnce c)
         (pongWait c) (pingInterval c) (calls c).
Definition set_pongOnce (n : nat) (c : Conn) : Conn :=
  mkConn (readyState c) (timers c) (nextTimer c) n (closeOnce c) (errorOnce c)
         (pongWait c) (pingInterval c) (calls c).
Definition set_closeOnce (b : bool) (c : Conn) : Conn :=
  mkConn (readyState c) (timers c) (nextTimer c) (pongOnce c) b (errorOnce c)
         (pongWait c) (pingInterval c) (calls c).
Definition set_errorOnce (b : bool) (c : Conn) : Conn :=
  mkConn (readyState c) (timers c) (nextTimer c) (pongOnce c) (closeOnce c) b
         (pongWait c) (pingInterval c) (calls c).
Definition set_pongWait (p : option nat) (c : Conn) : Conn :=
  mkConn (readyState c) (timers c) (nextTimer c) (pongOnce c) (closeOnce c) (errorOnce c)
         p (pingInterval c) (calls c).
Definition set_pingInterval (p : option nat) (c : Conn) : Conn :=
  mkConn (readyState c) (timers c) (nextTimer c) (pongOnce c) (closeOnce c) (errorOnce c)
         (pongWait c) p (calls c).
Definition log (k : Call) (c : Conn) : Conn :=
  mkConn (readyState c) (timers c) (nextTimer c) (pongOnce c) (closeOnce c) (errorOnce c)
         (pongWait c) (pingInterval c) (calls c ++ [k]).

(** *** The runtime the adapter calls into *)

(** [setTimeout(cb, delay)] / [setInterval(cb, delay)]: a fresh timer at
    the end of the list. *)
Definition arm (k : TimerKind) (delay : JSNumber) (c : Conn) : nat * Conn :=
  let id := nextTimer c in
  (id, set_nextTimer (S id) (set_timers (timers c ++ [mkTimer id k delay]) c)).

Definition setTimeout (delay : JSNumber) (c : Conn) : nat * Conn :=
  let '(id, c1) := arm KPongWait delay c in (id, log (SetTimeout id delay) c1).

Definition setInterval (delay : JSNumber) (c : Conn) : nat * Conn :=
  let '(id, c1) := arm KPingInterval delay c in (id, log (SetInterval id delay) c1).

(** [clearTimeout(t)] and [clearInterval(t)] both disarm the timer [t],
    whatever its kind, and do nothing when it is no longer armed. *)
Definition disarm (id : nat) (c : Conn) : Conn :=
  set_timers (List.filter (fun t => negb (Nat.eqb (timerId t) id)) (timers c)) c.

Definition clearTimeout (id : nat) (c : Conn) : Conn :=
  log (ClearTimeout id) (disarm id c).

Definition clearInterval (id : nat) (c : Conn) : Conn :=
  log (ClearInterval id) (disarm id c).

(** [socket.terminate()] of [ws]: the socket is destroyed without a close
    frame; an open socket is left in the CLOSING state until ['close']. *)
Definition socketTerminate (c : Conn) : Conn :=
  log SocketTerminate
      (match readyState c with
       | CLOSED => c
       | _ => set_readyState CLOSING c
       end).

(** [socket.close(code, reason)] of [ws]: starts the closing handshake of
    an open socket. *)
Definition socketClose (code : Z) (reason : string) (c : Conn) : Conn :=
  log (SocketClose code reason)
      (match readyState c with
       | OPEN => set_readyState CLOSING c
       | _ => c
       end).

Definition socketPing (c : Conn) : Conn := log SocketPing c.

Section Adapter.

(** [const isProd = process.env.NODE_ENV === 'production'] *)
Variable isProd : bool.

(** [limitCloseReason] of [../utils], whose source file is absent: the
    adapter is embedded over any such function. *)
Variable limitCloseReason : string -> string -> string.

(** The [keepAlive] argument of [useServer]. *)
Variable keepAlive : JSNumber.

(** [err instanceof Error ? err.message : String(err)] *)
Definition errText (err : Thrown) : string :=
  match err with
  | ThrownError e => message e
  | ThrownOther s => s
  end.

(** The reason argument of the three [close] calls that report an
    internal error:
    [isProd ? 'Internal server error'
            : limitCloseReason(err instanceof Error ? err.message : String(err),
                               'Internal server error')] *)
Definition internalReason (err : Thrown) : string :=
  if isProd then "Internal server error"
  else limitCloseReason (errText err) "Internal server error".

(** *** Handlers of one connection *)

(** [socket.once('error', (err) => ...)] *)
Definition onSocketError (err : Thrown) (c : Conn) : Conn :=
  let c1 := log (ConsoleError
    "Internal error emitted on a WebSocket socket. Please check your implementation." err) c in
  socketClose CloseCode.InternalServerError (internalReason err) c1.

(** The callback of [pongWait = setTimeout(() => { socket.terminate() }, keepAlive)] *)
Definition onPongWait (c : Conn) : Conn := socketTerminate c.

(** The listener of [socket.once('pong', ...)]:
    [if (pongWait) { clearTimeout(pongWait); pongWait = null; }] *)
Definition onPong (c : Conn) : Conn :=
  match pongWait c with
  | Some t => set_pongWait None (clearTimeout t c)
  | None => c
  end.

(** The callback of [setInterval(() => {...}, keepAlive)] *)
Definition onPingInterval (c : Conn) : Conn :=
  if isOpen (readyState c) then
    let '(t, c1) := setTimeout keepAlive c in
    let c2 := set_pongWait (Some t) c1 in
    let c3 := log OncePong (set_pongOnce (S (pongOnce c2)) c2) in
    socketPing c3
  else c.

(** The [send] closure handed to [server.opened]:
    [new Promise((resolve, reject) => {
       if (socket.readyState !== socket.OPEN) return resolve();
       socket.send(data, (err) => (err ? reject(err) : resolve()));
     })]
    [written] is what the transport does with the callback of
    [socket.send]: not called yet ([None]), called without an error
    ([Some None]) or called with one ([Some (Some err)]). *)
Definition send (data : string) (written : option (option Error)) (c : Conn)
  : Promise * Conn :=
  if negb (isOpen (readyState c)) then (Resolved, c)
  else
    (match written with
     | None => Pending
     | Some None => Resolved
     | Some (Some err) => Rejected err
     end,
     log (SocketSend data) c).

(** The [close] closure handed to [server.opened] *)
Definition close (code : Z) (reason : string) (c : Conn) : Conn :=
  socketClose code reason c.

(** The ['message'] listener installed by [onMessage(cb)]; [thrown] is
    how [await cb(String(event))] ends: normally, or with a thrown
    value. *)
Definition onMessageEvent (event : string) (thrown : option Thrown) (c : Conn) : Conn :=
  let c1 := log (CoreMessage event) c in
  match thrown with
  | None => c1
  | Some err =>
      let c2 := log (ConsoleError
        "Internal error occurred during message handling. Please check your implementation."
        err) c1 in
      socketClose CloseCode.InternalServerError (internalReason err) c2
  end.

(** [socket.once('close', (code, reason) => {...})], in two stages: the
    two [clear] statements, then [closed(code, String(reason))]. *)
Definition clearKeepAlive (c : Conn) : Conn :=
  let c1 := match pongWait c with
            | Some t => clearTimeout t c
            | None => c
            end in
  match pingInterval c1 with
  | Some i => clearInterval i c1
  | None => c1
  end.

Definition onClose (code : Z) (reason : string) (c : Conn) : Conn :=
  log (CoreClosed code reason) (clearKeepAlive c).

(** [ws.on('connection', (socket, request) => {...})]: the state of a
    connection once the handler has run on a socket that [ws] has just
    opened. *)
Definition newSocket : Conn :=
  mkConn OPEN [] 0%nat 0%nat false false None None [].

Definition onConnection : Conn :=
  let c1 := set_errorOnce true newSocket in
  let c2 :=
    if gt0 keepAlive && isFinite keepAlive then
      let '(i, c) := setInterval keepAlive c1 in set_pingInterval (Some i) c
    else c1 in
  let c3 := log ServerOpened c2 in
  set_closeOnce true c3.

(** *** What can happen to a connection *)

Inductive Event :=
| TimerFires                                  (* Node runs the next timer *)
| PongFrame                                   (* [ws] emits ['pong'] *)
| ErrorEvent (err : Thrown)                   (* [ws] emits ['error'] *)
| MessageEvent (event : string) (thrown : option Thrown)
| CoreSend (data : string) (written : option (option Error))
| CoreClose (code : Z) (reason : string)      (* the core calls [close] *)
| StateChange (rs : ReadyState)               (* the socket changes state *)
| CloseEvent (code : Z) (reason : string).    (* [ws] emits ['close'] *)

(** Node takes the first timer off the list and runs its callback; an
    interval goes back to the end of the list once its callback has
    returned (the callback of [pingInterval] never clears it). *)
Definition fire (c : Conn) : Conn :=
  match timers c with
  | [] => c
  | t :: rest =>
      let c1 := set_timers rest c in
      match timerKind t with
      | KPongWait => onPongWait c1
      | KPingInterval =>
          let c2 := onPingInterval c1 in
          set_timers (timers c2 ++ [t]) c2
      end
  end.

(** ['pong'] runs every pending once-listener and forgets them. *)
Definition emitPong (c : Conn) : Conn :=
  set_pongOnce 0%nat (Nat.iter (pongOnce c) onPong c).

Definition step (e : Event) (c : Conn) : Conn :=
  match e with
  | TimerFires => fire c
  | PongFrame => emitPong c
  | ErrorEvent err =>
      if errorOnce c then onSocketError err (set_errorOnce false c) else c
  | MessageEvent event thrown => onMessageEvent event thrown c
  | CoreSend data written => snd (send data written c)
  | CoreClose code reason => close code reason c
  | StateChange rs => set_readyState rs c
  | CloseEvent code reason =>
      if closeOnce c
      then onClose code reason (set_closeOnce false (set_readyState CLOSED c))
      else set_readyState CLOSED c
  end.

Definition run (es : list Event) (c : Conn) : Conn :=
  fold_left (fun c e => step e c) es c.

(** The states a connection can be in. *)
Inductive reachable : Conn -> Prop :=
| reach_connection : reachable onConnection
| reach_step e c : reachable c -> reachable (step e c).

End Adapter.

(** *** The socket server: the ['error'] handler and [dispose] *)

(** A member of [ws.clients]. [closeThrows code reason] is what
    [client.close(code, reason)] throws, if it throws. *)
Record Client := mkClient {
  clientId : nat;
  closeThrows : Z -> string -> option Error
}.

(** What the adapter calls on the socket server and its clients. *)
Inductive ServerCall :=
| ServerConsoleError (text : string) (err : Thrown)
| ClientClose (client : nat) (code : Z) (reason : string)
| RemoveAllListeners
| ServerClose.

(** How a handler, or the [emit] that runs it, ends: normally, by
    throwing an [Error], or by throwing the ERR_UNHANDLED_ERROR that Node
    raises about a value that is not an [Error]. *)
Inductive Completion :=
| Normal
| Throw (e : Error)
| ThrowUnhandled (rendered : string).

(** [emit('error', err)] on an emitter that has no listener for
    ['error']: Node throws [err] itself when it is an [Error], and an
    ERR_UNHANDLED_ERROR about the value otherwise. *)
Definition unhandled (err : Thrown) : Completion :=
  match err with
  | ThrownError e => Throw e
  | ThrownOther rendered => ThrowUnhandled rendered
  end.

(** Listeners that [useServer] registers on the socket server. *)
Inductive Listener := OnceError | OnConnection.

Record WsServer := mkWsServer {
  clients : list Client;
  listeners : list Listener;
  serverCalls : list ServerCall
}.

Section ServerLevel.

Variable isProd : bool.
Variable limitCloseReason : string -> string -> string.

(** The loop of the ['error'] handler, with [firstErr] threaded
    through:
    [for (const client of ws.clients) {
       try { client.close(CloseCode.InternalServerError, reason) }
       catch (err) { firstErr = firstErr ?? err; }
     }] *)
Fixpoint closeEach (err : Thrown) (cs : list Client) (firstErr : option Error)
  : list ServerCall * option Error :=
  match cs with
  | [] => ([], firstErr)
  | client :: rest =>
      let reason := internalReason isProd limitCloseReason err in
      let firstErr' :=
        match closeThrows client CloseCode.InternalServerError reason with
        | Some thrown => nullish firstErr thrown
        | None => firstErr
        end in
      let '(made, final) := closeEach err rest firstErr' in
      (ClientClose (clientId client) CloseCode.InternalServerError reason :: made, final)
  end.

(** [ws.once('error', (err) => {...})]; the last statement is
    [if (firstErr) throw firstErr]. *)
Definition onServerError (err : Thrown) (cs : list Client)
  : list ServerCall * Completion :=
  let '(made, firstErr) := closeEach err cs None in
  (ServerConsoleError
     "Internal error emitted on the WebSocket server. Please check your implementation."
     err :: made,
   match firstErr with
   | Some e => Throw e
   | None => Normal
   end).

(** [useServer] registers the two listeners. *)
Definition useServer (cs : list Client) : WsServer :=
  mkWsServer cs [OnceError; OnConnection] [].

(** [ws] emits ['error']: the once-listener, if still there, is taken
    off and run; with no listener for ['error'] left, the emitter throws
    the event. *)
Definition emitServerError (err : Thrown) (s : WsServer) : WsServer * Completion :=
  if existsb (fun l => match l with OnceError => true | _ => false end) (listeners s)
  then
    let '(made, how) := onServerError err (clients s) in
    (mkWsServer (clients s)
                (List.filter (fun l => match l with OnceError => false | _ => true end)
                        (listeners s))
                (serverCalls s ++ made),
     how)
  else (s, unhandled err).

End ServerLevel.

(** The loop of [dispose]:
    [for (const client of ws.clients) { client.close(1001, 'Going away'); }]
    A [close] that throws ends the loop, and the [async] function with
    it. *)
Fixpoint goingAway (cs : list Client) : list ServerCall * option Error :=
  match cs with
  | [] => ([], None)
  | client :: rest =>
      let made := ClientClose (clientId client) 1001 "Going away" in
      match closeThrows client 1001 "Going away" with
      | Some thrown => ([made], Some thrown)
      | None => let '(more, how) := goingAway rest in (made :: more, how)
      end
  end.

(** [dispose: async () => {...}]. [closed] is what the socket server
    does with the callback of [ws.close]: not called yet ([None]),
    called without an error ([Some None]), or with one. *)
Definition dispose (closed : option (option Error)) (s : WsServer)
  : WsServer * Promise :=
  match goingAway (clients s) with
  | (made, Some thrown) =>
      (mkWsServer (clients s) (listeners s) (serverCalls s ++ made), Rejected thrown)
  | (made, None) =>
      (mkWsServer (clients s) []
                  (serverCalls s ++ made ++ [RemoveAllListeners; ServerClose]),
       match closed with
       | None => Pending
       | Some None => Resolved
       | Some (Some err) => Rejected err
       end)
  end.

(** *** Observations used to state the properties *)

(** The close frames a list of calls asks the socket for. *)
Definition closeFrames (ks : list Call) : list (Z * string) :=
  flat_map (fun k => match k with
                     | SocketClose code reason => [(code, reason)]
                     | _ => []
                     end) ks.

(** The frames a list of calls writes to the socket. *)
Definition sentFrames (ks : list Call) : list string :=
  flat_map (fun k => match k with
                     | SocketSend data => [data]
                     | _ => []
                     end) ks.

(** The [client.close] calls among the calls on the socket server. *)
Definition clientCloses (ks : list ServerCall) : list (nat * Z * string) :=
  flat_map (fun k => match k with
                     | ClientClose client code reason => [(client, code, reason)]
                     | _ => []
                     end) ks.

(** [close(1001, 'Going away')] on each client, in order. *)
Definition goingAwayCalls (cs : list Client) : list ServerCall :=
  map (fun cl => ClientClose (clientId cl) 1001 "Going away") cs.

(** What the first client whose [close(code, reason)] throws, throws. *)
Fixpoint firstThrown (code : Z) (reason : string) (cs : list Client) : option Error :=
  match cs with
  | [] => None
  | client :: rest =>
      match closeThrows client code reason with
      | Some thrown => Some thrown
      | None => firstThrown code reason rest
      end
  end.

(** [keepAlive > 0 && isFinite(keepAlive)] *)
Definition enabled (keepAlive : JSNumber) : bool :=
  gt0 keepAlive && isFinite keepAlive.

(** The two timers of a connection, as they sit in the timer list. *)
Definition theInterval (keepAlive : JSNumber) : Timer :=
  mkTimer 0 KPingInterval keepAlive.
Definition thePongWait (keepAlive : JSNumber) (t : nat) : Timer :=
  mkTimer t KPongWait keepAlive.

(** The shape of a connection's timers: nothing armed; the interval
    alone; or one pong timer, the one [pongWait] names, ahead of the
    interval, with a ['pong'] listener pending. *)
Definition timersShape (keepAlive : JSNumber) (c : Conn) : Prop :=
  timers c = []
  \/ timers c = [theInterval keepAlive]
  \/ exists t, pongWait c = Some t
               /\ timers c = [thePongWait keepAlive t; theInterval keepAlive]
               /\ (1 <= pongOnce c)%nat.

(** What holds of every state of a connection. *)
Definition keepAliveInv (keepAlive : JSNumber) (c : Conn) : Prop :=
  (forall t, pongWait c = Some t -> (1 <= t < nextTimer c)%nat)
  /\ (closeOnce c = false -> timers c = [])
  /\ ((enabled keepAlive = false /\ pingInterval c = None
       /\ nextTimer c = 0%nat /\ timers c = [])
      \/ (enabled keepAlive = true /\ pingInterval c = Some 0%nat
          /\ (1 <= nextTimer c)%nat /\ timersShape keepAlive c)).

(** Two states of a connection that agree on everything the keep-alive
    reads or writes. *)
Definition sameKeepAlive (c c' : Conn) : Prop :=
  timers c' = timers c /\ nextTimer c' = nextTimer c
  /\ pongOnce c' = pongOnce c /\ closeOnce c' = closeOnce c
  /\ pongWait c' = pongWait c /\ pingInterval c' = pingInterval c.

(** [keepAlive] is positive and finite; is zero or not finite. *)
Definition positiveFinite (keepAlive : JSNumber) : Prop :=
  exists q, keepAlive = NFinite q /\ (0 < q)%Q.
Definition zeroOrNotFinite (keepAlive : JSNumber) : Prop :=
  (exists q, keepAlive = NFinite q /\ (q == 0)%Q) \/ isFinite keepAlive = false.

(** A call that clears a timer. *)
Definition isClear (k : Call) : bool :=
  match k with
  | ClearTimeout _ | ClearInterval _ => true
  | _ => false
  end.

(** For the examples: the default [keepAlive] of 12 seconds, and a
    [limitCloseReason] that keeps reasons of fewer than 124 characters. *)
Definition defaultKeepAlive : JSNumber := NFinite 12000.
Definition shortReason (reason whenTooLong : string) : string :=
  if Nat.ltb (String.length reason) 124 then reason else whenTooLong.

(** For the examples: a connection with the default [keepAlive] after
    the first tick of its interval, with the pong timer armed. *)
Definition armedConn : Conn :=
  mkConn OPEN [thePongWait defaultKeepAlive 1; theInterval defaultKeepAlive]
         2 1 true true (Some 1%nat) (Some 0%nat)
         [SetInterval 0 defaultKeepAlive; ServerOpened;
          SetTimeout 1 defaultKeepAlive; OncePong; SocketPing].

(** Clients for the examples: one whose [close] always throws, one whose
    [close] never does. *)
Definition brokenClient (id : nat) (msg : string) : Client :=
  mkClient id (fun _ _ => Some (mkError msg)).
Definition soundClient (id : nat) : Client :=
  mkClient id (fun _ _ => None).

End UseWs.

(** ** [../utils] *)
Module Utils.

(** The limit of a WebSocket close reason, in bytes. *)
Definition closeReasonLimit : nat := 123.

(** Modelled from the spec: [limitCloseReason] of [src/utils.ts], which is
    absent from the sources ([src/use/ws.ts] imports it and calls it with
    the text of the error and the fallback 'Internal server error').
    By sections 6 and 9 of the specification a reason derived from error
    text is limited to the close-reason limit of 123 UTF-8 bytes, with a
    known fallback: a reason that fits is kept, and the fallback stands in
    for one that is too long. Strings are sequences of bytes here. *)
Definition limitCloseReason (reason whenTooLong : string) : string :=
  if (String.length reason <=? closeReasonLimit)%nat then reason else whenTooLong.

End Utils.

(** ** [src/use/ws.ts]: further observations *)
Module UseWsMore.
Import Common UseWs.

(** The claim's side of the comparison for the reason of a close that
    reports an internal error: in production the literal; otherwise the
    message of the error (what [String(err)] gives for a value that is not
    an [Error]) if it fits the limit of 123 bytes, and the fallback
    if it does not. *)
Definition claimedReason (isProd : bool) (err : Thrown) : string :=
  if isProd then "Internal server error"
  else
    match err with
    | ThrownError e =>
        if (String.length (message e) <=? 123)%nat
        then message e else "Internal server error"
    | ThrownOther rendered =>
        if (String.length rendered <=? 123)%nat
        then rendered else "Internal server error"
    end.

(** [isValidStatusCode] of the [ws] library: the close codes that
    [close] accepts. *)
Definition validStatusCode (code : Z) : bool :=
  ((1000 <=? code) && (code <=? 1014)
   && negb (code =? 1004) && negb (code =? 1005) && negb (code =? 1006))
  || ((3000 <=? code) && (code <=? 4999)).

(** A client that is a socket of the [ws] library: its [close(code,
    reason)] throws only for a code that is not valid (a TypeError) or for
    a reason of more than 123 bytes (a RangeError). *)
Definition wsClient (cl : Client) : Prop :=
  forall code reason,
    validStatusCode code = true ->
    (String.length reason <= 123)%nat ->
    closeThrows cl code reason = None.

(** For the examples: a client that throws exactly in those two cases. *)
Definition strictClient (id : nat) : Client :=
  mkClient id (fun code reason =>
    if validStatusCode code then
      if (String.length reason <=? 123)%nat then None
      else Some (mkError "The message must not be greater than 123 bytes")
    else Some (mkError "First argument must be a valid error code number")).

(** The calls that one event makes the adapter add to its log, read off
    the handlers: used to state what the adapter does and never does. *)
Definition emitted (isProd : bool) (limitCloseReason : string -> string -> string)
    (keepAlive : JSNumber) (e : Event) (c : Conn) : list Call :=
  match e with
  | TimerFires =>
      match timers c with
      | [] => []
      | t :: _ =>
          match timerKind t with
          | KPongWait => [SocketTerminate]
          | KPingInterval =>
              if isOpen (readyState c)
              then [SetTimeout (nextTimer c) keepAlive; OncePong; SocketPing]
              else []
          end
      end
  | PongFrame =>
      match pongOnce c, pongWait c with
      | S _, Some t => [ClearTimeout t]
      | _, _ => []
      end
  | ErrorEvent err =>
      if errorOnce c
      then [ConsoleError
              "Internal error emitted on a WebSocket socket. Please check your implementation."
              err;
            SocketClose CloseCode.InternalServerError
                        (internalReason isProd limitCloseReason err)]
      else []
  | MessageEvent event thrown =>
      CoreMessage event
      :: match thrown with
         | None => []
         | Some err =>
             [ConsoleError
                "Internal error occurred during message handling. Please check your implementation."
                err;
              SocketClose CloseCode.InternalServerError
                          (internalReason isProd limitCloseReason err)]
         end
  | CoreSend data _ => if isOpen (readyState c) then [SocketSend data] else []
  | CoreClose code reason => [SocketClose code reason]
  | StateChange _ => []
  | CloseEvent code reason =>
      if closeOnce c
      then match pongWait c with Some t => [ClearTimeout t] | None => [] end
           ++ match pingInterval c with Some i => [ClearInterval i] | None => [] end
           ++ [CoreClosed code reason]
      else []
  end.

(** How many calls of a list satisfy a test. *)
Definition occurrences (p : Call -> bool) (ks : list Call) : nat :=
  length (List.filter p ks).

Definition isCoreClosed (k : Call) : bool :=
  match k with CoreClosed _ _ => true | _ => false end.

Definition isServerOpened (k : Call) : bool :=
  match k with ServerOpened => true | _ => false end.

(** The clients up to and including the first one whose
    [close(code, reason)] throws. *)
Fixpoint uptoThrow (code : Z) (reason : string) (cs : list Client) : list Client :=
  match cs with
  | [] => []
  | client :: rest =>
      match closeThrows client code reason with
      | Some _ => [client]
      | None => client :: uptoThrow code reason rest
      end
  end.

End UseWsMore.

(** ** The server core ([src/server.ts]), as the specification describes it *)
Module Server.
Import Common.

(** *** Subprotocol negotiation *)

(** A value that is none of the accepted forms. *)
Inductive OtherValue :=
| VNumber (n : JSNumber)
| VBoolean (b : bool)
| VObject
| VFunction
| VNull
| VUndefined.

(** What a caller may hand to [handleProtocols]. *)
Inductive Protocols :=
| PSet (members : gset string)
| PArray (members : list string)
| PString (offered : string)
| POther (v : OtherValue).

(** Whitespace that trimming removes (characters are 8-bit here: tab,
    line feed, vertical tab, form feed, carriage return, space). *)
Definition isWhite (c : ascii) : bool :=
  let n := N_of_ascii c in
  ((9 <=? n)%N && (n <=? 13)%N) || (n =? 32)%N.

Fixpoint allWhite (s : string) : bool :=
  match s with
  | EmptyString => true
  | String c rest => isWhite c && allWhite rest
  end.

(** [sep] does not occur in [s]. *)
Fixpoint sepFree (sep : ascii) (s : string) : bool :=
  match s with
  | EmptyString => true
  | String c rest => negb (Ascii.eqb c sep) && sepFree sep rest
  end.

(** [s.split(sep)] for a separator of one character. *)
Fixpoint split (sep : ascii) (s : string) : list string :=
  match s with
  | EmptyString => [EmptyString]
  | String c rest =>
      if Ascii.eqb c sep then EmptyString :: split sep rest
      else match split sep rest with
           | [] => [String c EmptyString]
           | piece :: pieces => String c piece :: pieces
           end
  end.

Fixpoint trimStart (s : string) : string :=
  match s with
  | EmptyString => EmptyString
  | String c rest => if isWhite c then trimStart rest else s
  end.

Fixpoint trimEnd (s : string) : string :=
  match s with
  | EmptyString => EmptyString
  | String c rest =>
      match trimEnd rest with
      | EmptyString => if isWhite c then EmptyString else String c EmptyString
      | kept => String c kept
      end
  end.

(** [s.trim()] *)
Definition trim (s : string) : string := trimEnd (trimStart s).

(** Modelled from the spec: [handleProtocols] of [src/server.ts], which
    is absent from the sources (only its test is present). The
    accepted forms are a set of strings, a list of strings, or one
    comma-separated string; tokens are compared by exact string equality,
    after trimming surrounding whitespace on comma-split strings;
    anything else is no match ([None], the [false] of the code). *)
Definition handleProtocols (protocols : Protocols) : option string :=
  match protocols with
  | PSet members =>
      if bool_decide (GRAPHQL_TRANSPORT_WS_PROTOCOL ∈ members)
      then Some GRAPHQL_TRANSPORT_WS_PROTOCOL else None
  | PArray members =>
      if existsb (String.eqb GRAPHQL_TRANSPORT_WS_PROTOCOL) members
      then Some GRAPHQL_TRANSPORT_WS_PROTOCOL else None
  | PString offered =>
      if existsb (String.eqb GRAPHQL_TRANSPORT_WS_PROTOCOL)
                 (map trim (split "," offered))
      then Some GRAPHQL_TRANSPORT_WS_PROTOCOL else None
  | POther _ => None
  end.

(** The claim's side of the comparison: [protocols] is a set or a list
    that has the token as a member, or a string made of comma-free pieces
    joined by commas, one of which is the token between (possibly empty)
    runs of whitespace. *)
Definition offersToken (protocols : Protocols) : Prop :=
  match protocols with
  | PSet members => GRAPHQL_TRANSPORT_WS_PROTOCOL ∈ members
  | PArray members => In GRAPHQL_TRANSPORT_WS_PROTOCOL members
  | PString offered =>
      exists pieces before after,
        offered = String.concat "," pieces
        /\ Forall (fun piece => sepFree "," piece = true) pieces
        /\ In (before +:+ GRAPHQL_TRANSPORT_WS_PROTOCOL +:+ after) pieces
        /\ allWhite before = true /\ allWhite after = true
  | POther _ => False
  end.

(** *** The connection state machine and the subscription registry *)

(** Messages a client sends. *)
Inductive ClientMessage :=
| CConnectionInit (payload : option string)
| CPing (payload : option string)
| CPong (payload : option string)
| CSubscribe (id : string) (payload : string)
| CComplete (id : string).

(** Messages the server sends. *)
Inductive ServerMessage :=
| SConnectionAck (payload : option string)
| SPong (payload : option string)
| SNext (id : string) (payload : string)
| SError (id : string) (errors : list string)
| SComplete (id : string).

(** An entry of the registry: the sentinel placed when a [subscribe] is
    parsed, or the producer that the factory returned. *)
Inductive Entry :=
| Reservation
| RunningProducer (producer : nat).

(** Modelled from the spec: the [Context] of [src/server.ts] (the file is
    absent from the sources), per connection:
    [{ connectionParams?, connectionInitReceived, acknowledged,
       subscriptions }]. *)
Record Context := mkContext {
  connectionParams : option string;
  connectionInitReceived : bool;
  acknowledged : bool;
  subscriptions : gmap string Entry
}.

(** A connection: its context, whether [onConnect] is in progress, and
    whether the socket has been observed closed. *)
Record Connection := mkConnection {
  ctx : Context;
  connecting : bool;
  closed : bool
}.

(** Modelled from the spec: the registry operations of section 4.E
    ([src/server.ts] is absent from the sources).
    [reserve] inserts the sentinel, or reports a duplicate ([None])
    without mutating; [install] replaces the sentinel by the running
    producer; [drop] removes the entry and returns the producer it held,
    if any. *)
Definition reserve (id : string) (subs : gmap string Entry)
  : option (gmap string Entry) :=
  match subs !! id with
  | Some _ => None
  | None => Some (<[id := Reservation]> subs)
  end.

Definition install (id : string) (producer : nat) (subs : gmap string Entry)
  : gmap string Entry :=
  <[id := RunningProducer producer]> subs.

Definition drop (id : string) (subs : gmap string Entry)
  : gmap string Entry * option nat :=
  (delete id subs,
   match subs !! id with
   | Some (RunningProducer producer) => Some producer
   | _ => None
   end).

Definition snapshotIds (subs : gmap string Entry) : list string :=
  (map_to_list subs).*1.

(** User hooks that the core calls without waiting for an answer that
    changes its state. *)
Inductive HookCall :=
| OnPing (payload : option string)
| OnPong (payload : option string)
| OnComplete (id : string)
| OnDisconnect (code : Z) (reason : string)
| OnClose (code : Z) (reason : string).

(** What the core does to the outside, in order. *)
Inductive Output :=
| Send (m : ServerMessage)
| Close (code : Z) (reason : string)
| StartInitTimer
| CancelInitTimer
| CallOnConnect
| CallFactory (id : string) (payload : string)
| Start (producer : nat)
| Stop (producer : nat)
| AwaitCompletion (producer : nat)
| Hook (h : HookCall).

(** How [onConnect] answers: [false], or acceptance with an optional
    payload for the acknowledgement. *)
Inductive ConnectAnswer :=
| Refuse
| Accept (payload : option string).

(** How a producer's [start] settles. *)
Inductive Settled :=
| ResolvedNothing
| ResolvedErrors (errors : list string)
| RejectedWith (err : Thrown).

(** What happens to a connection. *)
Inductive Event :=
| Inbound (m : ClientMessage)                 (* a frame that decodes *)
| Undecodable (reason : string)               (* a frame that does not *)
| InitTimerFired
| OnConnectResolved (answer : ConnectAnswer)
| FactoryReturned (id : string) (producer : nat)
| Emit (id : string) (payload : string)       (* a producer calls [emit] *)
| StartSettled (id : string) (how : Settled)
| SocketClosed (code : Z) (reason : string).  (* the adapter calls [closed] *)

Definition with_subscriptions (subs : gmap string Entry) (c : Connection) : Connection :=
  mkConnection
    (mkContext (connectionParams (ctx c)) (connectionInitReceived (ctx c))
               (acknowledged (ctx c)) subs)
    (connecting c) (closed c).

(** The producers a registry holds, in the order of [snapshotIds]. *)
Definition producersOf (subs : gmap string Entry) : list nat :=
  flat_map (fun kv => match kv.2 with
                      | RunningProducer producer => [producer]
                      | Reservation => []
                      end) (map_to_list subs).

Section Orchestrator.

(** [onSubscribe(ctx, message)]: the error payload to answer with, if
    any. *)
Variable onSubscribe : Context -> string -> string -> option (list string).

(** Whether the [onPing] and [onPong] hooks are set. *)
Variable hasOnPing : bool.
Variable hasOnPong : bool.

(** The reason sent with a 4500 close for a thrown value. *)
Variable reasonOf : Thrown -> string.

(** Modelled from the spec: [opened(socket, extra)] of section 4.G, which
    creates the context and starts the init timer. *)
Definition opened : Connection * list Output :=
  (mkConnection (mkContext None false false ∅) false false, [StartInitTimer]).

(** Modelled from the spec: the inbound dispatch of section 4.G and the
    transitions of section 4.D ([src/server.ts] is absent from the
    sources). *)
Definition onInbound (m : ClientMessage) (c : Connection)
  : Connection * list Output :=
  match m with
  | CConnectionInit payload =>
      if connectionInitReceived (ctx c)
      then (c, [Close CloseCode.TooManyInitialisationRequests
                      "Too many initialisation requests"])
      else (mkConnection
              (mkContext payload true (acknowledged (ctx c))
                         (subscriptions (ctx c)))
              true (closed c),
            [CancelInitTimer; CallOnConnect])
  | CPing payload =>
      (c, if hasOnPing then [Hook (OnPing payload)] else [Send (SPong payload)])
  | CPong payload =>
      (c, if hasOnPong then [Hook (OnPong payload)] else [])
  | CSubscribe id payload =>
      if negb (acknowledged (ctx c))
      then (c, [Close CloseCode.Unauthorized "Unauthorized"])
      else
        match reserve id (subscriptions (ctx c)) with
        | None =>
            (c, [Close CloseCode.SubscriberAlreadyExists
                       ("Subscriber for " +:+ id +:+ " already exists")])
        | Some reserved =>
            match onSubscribe (ctx c) id payload with
            | Some errors =>
                (with_subscriptions (drop id reserved).1 c, [Send (SError id errors)])
            | None =>
                (with_subscriptions reserved c, [CallFactory id payload])
            end
        end
  | CComplete id =>
      let '(rest, producer) := drop id (subscriptions (ctx c)) in
      (with_subscriptions rest c,
       match producer with
       | Some p => [Stop p; AwaitCompletion p]
       | None => []
       end)
  end.

(** Modelled from the spec: what the orchestrator does when the
    producer's [start] settles (section 4.G): resolves with nothing,
    emit [complete] and drop; resolves with an error payload, emit
    [error] and drop; rejects, close with 4500 if the registry still
    holds the id, and always drop. A message for an id is only emitted
    while the registry holds the id (section 3). *)
Definition onStartSettled (id : string) (how : Settled) (c : Connection)
  : Connection * list Output :=
  let held := bool_decide (is_Some (subscriptions (ctx c) !! id)) in
  (with_subscriptions (drop id (subscriptions (ctx c))).1 c,
   if held then
     match how with
     | ResolvedNothing => [Send (SComplete id)]
     | ResolvedErrors errors => [Send (SError id errors)]
     | RejectedWith err => [Close CloseCode.InternalServerError (reasonOf err)]
     end
   else []).

(** Modelled from the spec: the cleanup that [closed(code, reason)]
    runs (sections 4.G and 5): stop every producer, await them all,
    call [onComplete] for each id, then [onDisconnect] if the connection
    was acknowledged, then [onClose]. *)
Definition onSocketClosed (code : Z) (reason : string) (c : Connection)
  : Connection * list Output :=
  let subs := subscriptions (ctx c) in
  (mkConnection
     (mkContext (connectionParams (ctx c)) (connectionInitReceived (ctx c))
                (acknowledged (ctx c)) ∅)
     false true,
   map Stop (producersOf subs)
   ++ map AwaitCompletion (producersOf subs)
   ++ map (fun id => Hook (OnComplete id)) (snapshotIds subs)
   ++ (if acknowledged (ctx c) then [Hook (OnDisconnect code reason)] else [])
   ++ [Hook (OnClose code reason)]).

(** Modelled from the spec: one event of a connection, by the state
    machine of section 4.D ([src/server.ts] is absent from the sources).
    Once the socket has been observed closed, inbound
    messages are discarded and nothing is sent; a producer that settles
    late is still dropped. *)
Definition step (e : Event) (c : Connection) : Connection * list Output :=
  if closed c then
    match e with
    | StartSettled id _ =>
        (with_subscriptions (drop id (subscriptions (ctx c))).1 c, [])
    | _ => (c, [])
    end
  else
    match e with
    | Inbound m => onInbound m c
    | Undecodable reason => (c, [Close CloseCode.BadRequest reason])
    | InitTimerFired =>
        if connectionInitReceived (ctx c) then (c, [])
        else (c, [Close CloseCode.ConnectionInitialisationTimeout
                        "Connection initialisation timeout"])
    | OnConnectResolved answer =>
        if connecting c then
          match answer with
          | Refuse =>
              (mkConnection (ctx c) false (closed c),
               [Close CloseCode.Forbidden "Forbidden"])
          | Accept payload =>
              (mkConnection
                 (mkContext (connectionParams (ctx c))
                            (connectionInitReceived (ctx c)) true
                            (subscriptions (ctx c)))
                 false (closed c),
               [Send (SConnectionAck payload)])
          end
        else (c, [])
    | FactoryReturned id producer =>
        match subscriptions (ctx c) !! id with
        | Some Reservation =>
            (with_subscriptions (install id producer (subscriptions (ctx c))) c,
             [Start producer])
        | _ => (c, [])
        end
    | Emit id payload =>
        (c, if bool_decide (is_Some (subscriptions (ctx c) !! id))
            then [Send (SNext id payload)] else [])
    | StartSettled id how => onStartSettled id how c
    | SocketClosed code reason => onSocketClosed code reason c
    end.

(** A run of events, with everything the core did on the way. *)
Fixpoint run (es : list Event) (c : Connection) : Connection * list Output :=
  match es with
  | [] => (c, [])
  | e :: rest =>
      let '(c1, out1) := step e c in
      let '(c2, out2) := run rest c1 in
      (c2, out1 ++ out2)
  end.

(** The states a connection can be in. *)
Inductive reachable : Connection -> Prop :=
| reach_opened : reachable opened.1
| reach_step e c : reachable c -> reachable (step e c).1.

End Orchestrator.

(** What holds of every state of a connection: an acknowledged
    connection has received its init, and the registry holds entries only
    on an acknowledged connection whose socket is not closed. *)
Definition coreInv (c : Connection) : Prop :=
  (acknowledged (ctx c) = true -> connectionInitReceived (ctx c) = true)
  /\ (connecting c = true -> connectionInitReceived (ctx c) = true)
  /\ (forall id, is_Some (subscriptions (ctx c) !! id) ->
        acknowledged (ctx c) = true /\ closed c = false).

(** For the examples: a server without hooks, and the first events of a
    session: init, acknowledgement, a first [subscribe]. *)
Definition noOnSubscribe (_ : Context) (_ _ : string) : option (list string) := None.

Definition handshake : list Event :=
  [Inbound (CConnectionInit None); OnConnectResolved (Accept None)].

Definition firstSubscribe : list Event :=
  handshake ++ [Inbound (CSubscribe "not-unique" "query { getValue }")].

Definition reasonText (err : Thrown) : string :=
  match err with
  | ThrownError e => message e
  | ThrownOther rendered => rendered
  end.

(** The connection after [firstSubscribe], while the factory has not
    returned: the registry holds a reservation. *)
Definition preparing : Connection :=
  mkConnection (mkContext None true true {["not-unique" := Reservation]}) false false.

(** The same connection once the factory has returned producer 7. *)
Definition streaming : Connection :=
  mkConnection (mkContext None true true {["not-unique" := RunningProducer 7]})
               false false.

(** The messages among the outputs. *)
Definition sent (out : list Output) : list ServerMessage :=
  flat_map (fun o => match o with Send m => [m] | _ => [] end) out.

(** An event that comes from the producer of [id]. *)
Definition fromProducer (id : string) (e : Event) : Prop :=
  match e with
  | Emit id' _ => id' = id
  | StartSettled id' _ => id' = id
  | _ => False
  end.

End Server.

(** ** The test fixture of the ping subscription ([fixtures/simple.ts]) *)
Module Fixtures.

(** The names that every object inherits from [Object.prototype]: a
    lookup of such a name in an object that has no entry of its own for it
    finds the inherited value, which is truthy. The two registries start
    as [{}] and so inherit them. *)
Definition inheritedName (key : string) : bool :=
  existsb (String.eqb key)
          ["constructor"; "hasOwnProperty"; "isPrototypeOf"; "propertyIsEnumerable";
           "toLocaleString"; "toString"; "valueOf"; "__proto__";
           "__defineGetter__"; "__defineSetter__"; "__lookupGetter__";
           "__lookupSetter__"]%string.

(** The two module-level registries of the fixture, [pendingPongs] and
    [pongListeners], with the promises that the listeners resolve: the
    maps hold the entries of their own that the objects have; a listener
    is the [resolve] function of a promise, kept here as the number of that
    promise; [settled] holds the value of each promise that has been
    resolved. *)
Record Pongs := mkPongs {
  pendingPongs : gmap string nat;
  pongListeners : gmap string nat;
  settled : gmap nat bool;
  nextPromise : nat
}.

(** Calling the [resolve] function of promise [p]: only the first call
    settles the promise. *)
Definition resolve (p : nat) (done : bool) (st : Pongs) : Pongs :=
  match settled st !! p with
  | Some _ => st
  | None => mkPongs (pendingPongs st) (pongListeners st)
                    (<[p := done]> (settled st)) (nextPromise st)
  end.


(** [export function pong(key = 'global'): void]:
    [if (pongListeners[key]) { pongListeners[key]?.(false); }
     else { const pending = pendingPongs[key];
            pendingPongs[key] = pending ? pending + 1 : 1; }]
    With no listener of its own under an inherited name, [pongListeners[key]]
    is the inherited value: the first branch is taken, the pong is not
    counted and the registries stay as they are (what that call returns
    or throws is no part of the registries). *)
Definition pong (key : string) (st : Pongs) : Pongs :=
  match pongListeners st !! key with
  | Some listener => resolve listener false st
  | None =>
      if inheritedName key then st
      else
        let pending := pendingPongs st !! key in
        mkPongs (<[key := match pending with
                          | Some (S n) => (S n + 1)%nat
                          | _ => 1%nat
                          end]> (pendingPongs st))
                (pongListeners st) (settled st) (nextPromise st)
  end.

(** The default of the parameter: [pong()] is [pong('global')]. *)
Definition pongDefault (key : option string) (st : Pongs) : Pongs :=
  pong (default "global"%string key) st.

(** [vars?.key !== undefined ? vars.key : 'global'] *)
Definition keyOf (vars : option (gmap string string)) : string :=
  match vars with
  | Some m => default "global"%string (m !! "key"%string)
  | None => "global"%string
  end.









End Fixtures.

(* ===================================================================== *)
(** * Part II: properties                                                 *)
(* ===================================================================== *)

Module UseWsFacts.
Import Common UseWs.

(** *** The [send] closure *)

Lemma send_not_open data written c :
  readyState c <> OPEN -> send data written c = (Resolved, c).
Proof.
  intros Hrs. unfold send. destruct (readyState c); simpl; congruence.
Qed.

Lemma send_rejected data written c e :
  fst (send data written c) = Rejected e ->
  readyState c = OPEN /\ written = Some (Some e).
Proof.
  unfold send. destruct (readyState c); simpl; try discriminate.
  destruct written as [[err|]|]; simpl; try discriminate.
  intros [= ->]. split; reflexivity.
Qed.

(** C10. The adapter's [send] never rejects because of the connection
    state: on a socket whose [readyState] is not OPEN it resolves at once,
    hands nothing to [socket.send] and leaves the connection as it was;
    and whenever it rejects, the socket was OPEN and the rejection is the
    error that the transport reported for this very write. *)
Theorem send_rejects_only_on_failed_write data written c :
  (readyState c <> OPEN ->
     send data written c = (Resolved, c) /\
     sentFrames (calls (snd (send data written c))) = sentFrames (calls c)) /\
  (forall e, fst (send data written c) = Rejected e ->
     readyState c = OPEN /\ written = Some (Some e)).
Proof.
  split.
  - intros Hrs. rewrite (send_not_open data written c Hrs). split; reflexivity.
  - intros e. apply send_rejected.
Qed.

Lemma send_rejects_only_on_failed_write_witness :
  send "{}" (Some (Some (mkError "EPIPE"))) (set_readyState CLOSING newSocket)
    = (Resolved, set_readyState CLOSING newSocket)
  /\ fst (send "{}" (Some (Some (mkError "EPIPE"))) newSocket) = Rejected (mkError "EPIPE")
  /\ readyState newSocket = OPEN.
Proof.
  split.
  - apply (proj1 (send_rejects_only_on_failed_write
                    "{}" (Some (Some (mkError "EPIPE")))
                    (set_readyState CLOSING newSocket))).
    simpl. discriminate.
  - split; [reflexivity|].
    apply (proj2 (send_rejects_only_on_failed_write
                    "{}" (Some (Some (mkError "EPIPE"))) newSocket)
                 (mkError "EPIPE")).
    reflexivity.
Defined.

(** *** Close frames for internal errors *)

Lemma closeFrames_app ks1 ks2 :
  closeFrames (ks1 ++ ks2) = closeFrames ks1 ++ closeFrames ks2.
Proof. unfold closeFrames. apply flat_map_app. Qed.

Lemma calls_socketClose code reason c :
  calls (socketClose code reason c) = calls c ++ [SocketClose code reason].
Proof. unfold socketClose. destruct (readyState c); reflexivity. Qed.

Lemma closeFrames_onSocketError isProd lcr err c :
  closeFrames (calls (onSocketError isProd lcr err c))
  = closeFrames (calls c)
    ++ [(CloseCode.InternalServerError, internalReason isProd lcr err)].
Proof.
  unfold onSocketError. rewrite calls_socketClose. simpl.
  rewrite !closeFrames_app. simpl. rewrite app_nil_r. reflexivity.
Qed.

Lemma closeFrames_onMessageEvent isProd lcr event err c :
  closeFrames (calls (onMessageEvent isProd lcr event (Some err) c))
  = closeFrames (calls c)
    ++ [(CloseCode.InternalServerError, internalReason isProd lcr err)].
Proof.
  unfold onMessageEvent. rewrite calls_socketClose. simpl.
  rewrite !closeFrames_app. simpl. rewrite !app_nil_r. reflexivity.
Qed.

Lemma closeEach_calls isProd lcr err cs firstErr :
  clientCloses (fst (closeEach isProd lcr err cs firstErr))
  = map (fun cl => (clientId cl, CloseCode.InternalServerError,
                    internalReason isProd lcr err)) cs.
Proof.
  revert firstErr. induction cs as [|cl cs IH]; intros firstErr; simpl.
  - reflexivity.
  - destruct (closeEach isProd lcr err cs _) as [made final] eqn:E.
    simpl. f_equal. specialize (IH (match closeThrows cl CloseCode.InternalServerError
                                              (internalReason isProd lcr err) with
                                    | Some thrown => nullish firstErr thrown
                                    | None => firstErr
                                    end)).
    rewrite E in IH. exact IH.
Qed.

Lemma closeEach_result isProd lcr err cs firstErr :
  snd (closeEach isProd lcr err cs firstErr)
  = match firstErr with
    | Some e => Some e
    | None => firstThrown CloseCode.InternalServerError
                          (internalReason isProd lcr err) cs
    end.
Proof.
  revert firstErr. induction cs as [|cl cs IH]; intros firstErr; simpl.
  - destruct firstErr; reflexivity.
  - destruct (closeEach isProd lcr err cs _) as [made final] eqn:E.
    simpl.
    specialize (IH (match closeThrows cl CloseCode.InternalServerError
                              (internalReason isProd lcr err) with
                    | Some thrown => nullish firstErr thrown
                    | None => firstErr
                    end)).
    rewrite E in IH. simpl in IH. rewrite IH.
    destruct (closeThrows cl _ _), firstErr; reflexivity.
Qed.

Lemma onServerError_calls isProd lcr err cs :
  clientCloses (fst (onServerError isProd lcr err cs))
  = map (fun cl => (clientId cl, CloseCode.InternalServerError,
                    internalReason isProd lcr err)) cs.
Proof.
  unfold onServerError.
  pose proof (closeEach_calls isProd lcr err cs None) as H.
  destruct (closeEach isProd lcr err cs None) as [made final]. exact H.
Qed.

Lemma onServerError_result isProd lcr err cs :
  snd (onServerError isProd lcr err cs)
  = match firstThrown CloseCode.InternalServerError
                      (internalReason isProd lcr err) cs with
    | Some e => Throw e
    | None => Normal
    end.
Proof.
  unfold onServerError.
  pose proof (closeEach_result isProd lcr err cs None) as H.
  destruct (closeEach isProd lcr err cs None) as [made final].
  simpl in *. rewrite H. reflexivity.
Qed.

(** For any [limitCloseReason]: every internal error that the adapter
    reports asks for a close frame with code 4500, from each of its three
    handlers (the socket's
    ['error'], a throw out of the message callback, the server's
    ['error']). In production the reason is the literal
    "Internal server error" whatever the error was, so two runs that
    differ only in the error ask for the same frame; otherwise the reason
    is [limitCloseReason] of the error's message (of [String(err)] for a
    thrown value that is not an [Error]) with the fallback
    "Internal server error". *)
Theorem internal_error_close_frame
    (limitCloseReason : string -> string -> string) (err : Thrown) :
  (* production *)
  ((forall c, closeFrames (calls (onSocketError true limitCloseReason err c))
              = closeFrames (calls c) ++ [(4500, "Internal server error")]) /\
   (forall event c,
       closeFrames (calls (onMessageEvent true limitCloseReason event (Some err) c))
       = closeFrames (calls c) ++ [(4500, "Internal server error")]) /\
   (forall cs, clientCloses (fst (onServerError true limitCloseReason err cs))
               = map (fun cl => (clientId cl, 4500, "Internal server error")) cs) /\
   (forall err', internalReason true limitCloseReason err
                 = internalReason true limitCloseReason err')) /\
  (* any other environment *)
  ((forall c, closeFrames (calls (onSocketError false limitCloseReason err c))
              = closeFrames (calls c)
                ++ [(4500, limitCloseReason (errText err) "Internal server error")]) /\
   (forall event c,
       closeFrames (calls (onMessageEvent false limitCloseReason event (Some err) c))
       = closeFrames (calls c)
         ++ [(4500, limitCloseReason (errText err) "Internal server error")]) /\
   (forall cs, clientCloses (fst (onServerError false limitCloseReason err cs))
               = map (fun cl => (clientId cl, 4500,
                                 limitCloseReason (errText err) "Internal server error"))
                     cs)).
Proof.
  repeat split; intros.
  - apply closeFrames_onSocketError.
  - apply closeFrames_onMessageEvent.
  - apply onServerError_calls.
  - apply closeFrames_onSocketError.
  - apply closeFrames_onMessageEvent.
  - apply onServerError_calls.
Qed.

(** *** The ['error'] handler of the socket server *)

(** C7. When the socket server emits ['error'], the handler calls
    [close] with code 4500 on every connected client, in order, whether
    or not earlier calls threw; what it throws in the end is what the
    first throwing [close] threw (nothing when none threw), and it throws
    only once the loop has gone through all clients. *)
Theorem server_error_closes_all_then_rethrows_first
    (isProd : bool) (limitCloseReason : string -> string -> string)
    (err : Thrown) (cs : list Client) :
  clientCloses (serverCalls (fst (emitServerError isProd limitCloseReason err
                                                   (useServer cs))))
  = map (fun cl => (clientId cl, 4500, internalReason isProd limitCloseReason err)) cs
  /\ snd (emitServerError isProd limitCloseReason err (useServer cs))
     = match firstThrown 4500 (internalReason isProd limitCloseReason err) cs with
       | Some e => Throw e
       | None => Normal
       end
  /\ emitServerError isProd limitCloseReason err (useServer cs)
     = (mkWsServer cs [OnConnection]
                   (fst (onServerError isProd limitCloseReason err cs)),
        snd (onServerError isProd limitCloseReason err cs)).
Proof.
  assert (E : emitServerError isProd limitCloseReason err (useServer cs)
              = (mkWsServer cs [OnConnection]
                   (fst (onServerError isProd limitCloseReason err cs)),
                 snd (onServerError isProd limitCloseReason err cs))).
  { unfold emitServerError, useServer. simpl.
    destruct (onServerError isProd limitCloseReason err cs); reflexivity. }
  rewrite E. simpl. repeat split.
  - apply onServerError_calls.
  - apply onServerError_result.
Qed.

Example server_error_four_clients :
  emitServerError false (fun reason _ => reason) (ThrownError (mkError "boom"))
    (useServer [soundClient 1; brokenClient 2 "first"; brokenClient 3 "second";
                soundClient 4])
  = (mkWsServer
       [soundClient 1; brokenClient 2 "first"; brokenClient 3 "second"; soundClient 4]
       [OnConnection]
       [ServerConsoleError
          "Internal error emitted on the WebSocket server. Please check your implementation."
          (ThrownError (mkError "boom"));
        ClientClose 1 4500 "boom"; ClientClose 2 4500 "boom";
        ClientClose 3 4500 "boom"; ClientClose 4 4500 "boom"],
     Throw (mkError "first")).
Proof. reflexivity. Qed.

(** *** [dispose] *)

Lemma goingAway_no_throw cs :
  Forall (fun cl => closeThrows cl 1001 "Going away" = None) cs ->
  goingAway cs = (goingAwayCalls cs, None).
Proof.
  induction 1 as [|cl cs Hcl _ IH]; simpl.
  - reflexivity.
  - rewrite Hcl, IH. reflexivity.
Qed.

(** While no [client.close(1001, 'Going away')] throws, [dispose]
    calls it on every client, in order, then removes
    all listeners of the socket server, then calls [ws.close]; its
    promise stays pending until the callback of [ws.close] runs, resolves
    when that callback reports no error and rejects with the error it
    reports. *)
Theorem dispose_closes_all_then_server closed s :
  Forall (fun cl => closeThrows cl 1001 "Going away" = None) (clients s) ->
  serverCalls (fst (dispose closed s))
  = serverCalls s ++ goingAwayCalls (clients s) ++ [RemoveAllListeners; ServerClose]
  /\ listeners (fst (dispose closed s)) = []
  /\ snd (dispose closed s)
     = match closed with
       | None => Pending
       | Some None => Resolved
       | Some (Some e) => Rejected e
       end.
Proof.
  intros Hok. unfold dispose. rewrite (goingAway_no_throw _ Hok). simpl.
  repeat split.
Qed.

Lemma dispose_closes_all_then_server_witness :
  serverCalls (fst (dispose (Some None) (useServer [soundClient 1; soundClient 2])))
  = [ClientClose 1 1001 "Going away"; ClientClose 2 1001 "Going away";
     RemoveAllListeners; ServerClose]
  /\ listeners (fst (dispose (Some None) (useServer [soundClient 1; soundClient 2]))) = []
  /\ snd (dispose (Some None) (useServer [soundClient 1; soundClient 2])) = Resolved.
Proof.
  apply (dispose_closes_all_then_server
           (Some None) (useServer [soundClient 1; soundClient 2])).
  simpl. repeat constructor.
Defined.

(** What [dispose] would do with a client whose [close] throws on these
    arguments (a socket of [ws] never does): there is no [try]/[catch]
    around [client.close], so the second client is not closed, the
    listeners stay, [ws.close] is not called and the promise rejects with
    what was thrown. *)
Example dispose_stops_at_throwing_close :
  clientCloses
    (serverCalls (fst (dispose (Some None)
                               (useServer [brokenClient 1 "stuck"; soundClient 2]))))
  = [(1%nat, 1001, "Going away")]
  /\ listeners (fst (dispose (Some None)
                             (useServer [brokenClient 1 "stuck"; soundClient 2])))
     = [OnceError; OnConnection]
  /\ serverCalls (fst (dispose (Some None)
                               (useServer [brokenClient 1 "stuck"; soundClient 2])))
     = [ClientClose 1 1001 "Going away"]
  /\ snd (dispose (Some None) (useServer [brokenClient 1 "stuck"; soundClient 2]))
     = Rejected (mkError "stuck").
Proof. repeat split. Qed.

(** *** Keep-alive *)

Section KeepAlive.
Variable isProd : bool.
Variable limitCloseReason : string -> string -> string.
Variable keepAlive : JSNumber.

Local Abbreviation step := (step isProd limitCloseReason keepAlive).
Local Abbreviation reachable := (reachable isProd limitCloseReason keepAlive).
Local Abbreviation Inv := (keepAliveInv keepAlive).

Lemma onPong_idem c : onPong (onPong c) = onPong c.
Proof.
  unfold onPong. destruct (pongWait c) eqn:E; simpl; [reflexivity|].
  rewrite E. reflexivity.
Qed.

Lemma iter_onPong n c :
  Nat.iter n onPong c = match n with O => c | S _ => onPong c end.
Proof.
  induction n as [|n IH]; simpl; [reflexivity|].
  rewrite IH. destruct n; [reflexivity | apply onPong_idem].
Qed.

Lemma inv_onConnection : Inv (onConnection keepAlive).
Proof.
  unfold keepAliveInv, onConnection, enabled, timersShape.
  destruct (gt0 keepAlive && isFinite keepAlive); simpl.
  - split; [discriminate|]. split; [discriminate|]. right.
    repeat split; auto.
  - split; [discriminate|]. split; [discriminate|]. left. auto.
Qed.

Lemma inv_same c c' : sameKeepAlive c c' -> Inv c -> Inv c'.
Proof.
  unfold sameKeepAlive, keepAliveInv, timersShape.
  intros (Ht & Hn & Hp & Hc & Hw & Hi).
  rewrite Ht, Hn, Hp, Hc, Hw, Hi. auto.
Qed.

Lemma same_refl c : sameKeepAlive c c.
Proof. repeat split. Qed.

Lemma same_socketClose code reason c : sameKeepAlive c (socketClose code reason c).
Proof. unfold socketClose. destruct (readyState c); repeat split. Qed.

Lemma same_socketTerminate c : sameKeepAlive c (socketTerminate c).
Proof. unfold socketTerminate. destruct (readyState c); repeat split. Qed.

Lemma same_onSocketError err c :
  sameKeepAlive c (onSocketError isProd limitCloseReason err c).
Proof.
  unfold onSocketError.
  destruct (same_socketClose CloseCode.InternalServerError
              (internalReason isProd limitCloseReason err)
              (log (ConsoleError
                "Internal error emitted on a WebSocket socket. Please check your implementation."
                err) c)) as (Ht & Hn & Hp & Hc & Hw & Hi).
  unfold sameKeepAlive. rewrite Ht, Hn, Hp, Hc, Hw, Hi. repeat split.
Qed.

Lemma same_onMessageEvent event thrown c :
  sameKeepAlive c (onMessageEvent isProd limitCloseReason event thrown c).
Proof.
  unfold onMessageEvent. destruct thrown as [err|]; [|repeat split].
  match goal with |- sameKeepAlive _ (socketClose ?a ?b ?x) =>
    destruct (same_socketClose a b x) as (Ht & Hn & Hp & Hc & Hw & Hi) end.
  unfold sameKeepAlive. rewrite Ht, Hn, Hp, Hc, Hw, Hi. repeat split.
Qed.

Lemma same_send data written c : sameKeepAlive c (snd (send data written c)).
Proof. unfold send. destruct (isOpen (readyState c)); repeat split. Qed.

(** The pong timer fires: it leaves the list and the socket is
    terminated. *)
Lemma fire_pongWait c t rest :
  timers c = thePongWait keepAlive t :: rest ->
  fire keepAlive c = socketTerminate (set_timers rest c).
Proof. intros H. unfold fire. rewrite H. reflexivity. Qed.

(** The interval fires on a socket that is not open: nothing happens. *)
Lemma fire_interval_not_open c rest :
  timers c = theInterval keepAlive :: rest ->
  isOpen (readyState c) = false ->
  fire keepAlive c = set_timers (rest ++ [theInterval keepAlive]) c.
Proof.
  intros H Hrs. unfold fire. rewrite H. simpl.
  unfold onPingInterval. simpl. rewrite Hrs. reflexivity.
Qed.

(** The interval fires on an open socket. *)
Lemma fire_interval_open c rest :
  timers c = theInterval keepAlive :: rest ->
  isOpen (readyState c) = true ->
  fire keepAlive c
  = mkConn (readyState c)
           (rest ++ [thePongWait keepAlive (nextTimer c); theInterval keepAlive])
           (S (nextTimer c)) (S (pongOnce c)) (closeOnce c) (errorOnce c)
           (Some (nextTimer c)) (pingInterval c)
           (calls c ++ [SetTimeout (nextTimer c) keepAlive; OncePong; SocketPing]).
Proof.
  intros H Hrs. unfold fire. rewrite H. simpl.
  unfold onPingInterval. simpl. rewrite Hrs. simpl.
  unfold socketPing, log, set_timers. simpl.
  rewrite <- !app_assoc. reflexivity.
Qed.

Lemma inv_fire c : Inv c -> Inv (fire keepAlive c).
Proof.
  intros HI.
  assert (Hnil : timers c = [] -> Inv (fire keepAlive c)).
  { intros Ht. unfold fire. rewrite Ht. exact HI. }
  destruct HI as (Hw & Hc & [(Hen & Hi & Hn & Ht) | (Hen & Hi & Hn & Hs)]).
  - apply Hnil, Ht.
  - destruct Hs as [Ht | [Ht | (t & Hpw & Ht & Hpo)]].
    + apply Hnil, Ht.
    + destruct (isOpen (readyState c)) eqn:Hrs.
      * rewrite (fire_interval_open c [] Ht Hrs).
        unfold keepAliveInv, timersShape; simpl.
        split; [intros t [= <-]; lia|].
        split; [intros Hcl; rewrite (Hc Hcl) in Ht; discriminate|].
        right. repeat split; auto. right. right.
        exists (nextTimer c). repeat split; auto. lia.
      * rewrite (fire_interval_not_open c [] Ht Hrs). simpl.
        unfold keepAliveInv, timersShape; simpl.
        split; [exact Hw|].
        split; [intros Hcl; rewrite (Hc Hcl) in Ht; discriminate|].
        right. auto 10.
    + rewrite (fire_pongWait c t _ Ht).
      apply (inv_same (set_timers [theInterval keepAlive] c));
        [apply same_socketTerminate|].
      unfold keepAliveInv, timersShape; simpl.
      split; [exact Hw|].
      split; [intros Hcl; rewrite (Hc Hcl) in Ht; discriminate|].
      right. auto 10.
Qed.

Lemma inv_onPong c : Inv c -> Inv (set_pongOnce 0 (onPong c)).
Proof.
  intros (Hw & Hc & Hk). unfold onPong.
  destruct (pongWait c) as [t|] eqn:Hpw.
  - pose proof (Hw t eq_refl) as Hge.
    unfold keepAliveInv, timersShape; simpl.
    split; [discriminate|].
    split; [intros Hcl; rewrite (Hc Hcl); reflexivity|].
    destruct Hk as [(Hen & Hi & Hn & Ht) | (Hen & Hi & Hn & Hs)].
    + left. rewrite Ht. auto.
    + right. repeat split; auto.
      destruct Hs as [Ht | [Ht | (t' & Hpw' & Ht & Hpo)]]; rewrite Ht; simpl.
      * auto.
      * destruct t as [|t]; [lia|]. simpl. auto.
      * rewrite Hpw in Hpw'. injection Hpw' as <-.
        rewrite Nat.eqb_refl. simpl.
        destruct t as [|t]; [lia|]. simpl. auto.
  - unfold keepAliveInv, timersShape; simpl.
    split; [intros t Ht; rewrite Hpw in Ht; discriminate|].
    split; [exact Hc|].
    destruct Hk as [Hk | (Hen & Hi & Hn & Hs)]; [left; exact Hk|].
    right. repeat split; auto.
    destruct Hs as [Ht | [Ht | (t' & Hpw' & _)]]; auto.
    rewrite Hpw in Hpw'. discriminate.
Qed.

Lemma inv_emitPong c : Inv c -> Inv (emitPong c).
Proof.
  intros HI. unfold emitPong. rewrite iter_onPong.
  destruct (pongOnce c) eqn:Hpo; [|apply inv_onPong; exact HI].
  destruct HI as (Hw & Hc & Hk).
  unfold keepAliveInv, timersShape; simpl.
  split; [exact Hw|]. split; [exact Hc|].
  destruct Hk as [Hk | (Hen & Hi & Hn & Hs)]; [left; exact Hk|].
  right. repeat split; auto.
  destruct Hs as [Ht | [Ht | (t' & _ & _ & Hge)]]; auto.
  rewrite Hpo in Hge. lia.
Qed.

Lemma timers_clearKeepAlive c : Inv c -> timers (clearKeepAlive c) = [].
Proof.
  intros (Hw & Hc & Hk). unfold clearKeepAlive.
  destruct Hk as [(Hen & Hi & Hn & Ht) | (Hen & Hi & Hn & Hs)].
  - destruct (pongWait c) as [t|] eqn:Hpw.
    + specialize (Hw t eq_refl). lia.
    + rewrite Hi. exact Ht.
  - destruct (pongWait c) as [t|] eqn:Hpw; simpl; rewrite Hi; simpl.
    + pose proof (Hw t eq_refl) as Hge.
      destruct Hs as [Ht | [Ht | (t' & Hpw' & Ht & Hpo)]]; rewrite Ht; simpl.
      * reflexivity.
      * destruct t as [|t]; [lia|]. reflexivity.
      * assert (t' = t) as -> by congruence.
        rewrite Nat.eqb_refl. simpl.
        destruct t as [|t]; [lia|]. reflexivity.
    + destruct Hs as [Ht | [Ht | (t' & Hpw' & _)]]; [| |congruence];
        rewrite Ht; reflexivity.
Qed.

Lemma timers_clearKeepAlive_eq c :
  timers (clearKeepAlive c)
  = match pingInterval c with
    | Some i => List.filter (fun x => negb (Nat.eqb (timerId x) i))
    | None => fun ts => ts
    end
      (match pongWait c with
       | Some t => List.filter (fun x => negb (Nat.eqb (timerId x) t)) (timers c)
       | None => timers c
       end).
Proof.
  unfold clearKeepAlive.
  destruct (pongWait c) eqn:E1; simpl; destruct (pingInterval c) eqn:E2; reflexivity.
Qed.

Lemma inv_onClose code reason c :
  Inv c -> Inv (onClose code reason (set_closeOnce false (set_readyState CLOSED c))).
Proof.
  intros HI.
  assert (HI' : Inv (set_closeOnce true (set_readyState CLOSED c))).
  { destruct HI as (Hw & Hc & Hk).
    unfold keepAliveInv, timersShape in *; simpl.
    split; [exact Hw|]. split; [discriminate | exact Hk]. }
  pose proof (timers_clearKeepAlive _ HI') as Hemp.
  destruct HI as (Hw & Hc & Hk).
  assert (Hfields :
    forall x, nextTimer (clearKeepAlive x) = nextTimer x
              /\ pongWait (clearKeepAlive x) = pongWait x
              /\ pingInterval (clearKeepAlive x) = pingInterval x).
  { intros x. unfold clearKeepAlive.
    destruct (pongWait x) eqn:E1; simpl; destruct (pingInterval x) eqn:E2; simpl; auto. }
  assert (Htm : timers (clearKeepAlive (set_closeOnce false (set_readyState CLOSED c)))
                = []).
  { rewrite timers_clearKeepAlive_eq in *. exact Hemp. }
  destruct (Hfields (set_closeOnce false (set_readyState CLOSED c)))
    as (Hn' & Hw' & Hi').
  unfold onClose, keepAliveInv, timersShape; simpl.
  rewrite Htm, Hn', Hw', Hi'. simpl.
  split; [exact Hw|]. split; [reflexivity|].
  destruct Hk as [(Hen & Hi & Hn & Ht) | (Hen & Hi & Hn & Hs)]; auto 10.
Qed.

Lemma keepAlive_inv_step e c : Inv c -> Inv (step e c).
Proof.
  intros HI. destruct e; simpl.
  - apply inv_fire; exact HI.
  - apply inv_emitPong; exact HI.
  - destruct (errorOnce c); [|exact HI].
    apply (inv_same (set_errorOnce false c)); [apply same_onSocketError|].
    apply (inv_same c); [repeat split | exact HI].
  - apply (inv_same c); [apply same_onMessageEvent | exact HI].
  - apply (inv_same c); [apply same_send | exact HI].
  - apply (inv_same c); [apply same_socketClose | exact HI].
  - apply (inv_same c); [repeat split | exact HI].
  - destruct (closeOnce c) eqn:Hcl.
    + apply inv_onClose; exact HI.
    + apply (inv_same c); [repeat split | exact HI].
Qed.

(** Every state of a connection satisfies the invariant. *)
Lemma keepAlive_reachable_inv c : reachable c -> Inv c.
Proof.
  induction 1 as [|e c _ IH]; [apply inv_onConnection | apply keepAlive_inv_step; exact IH].
Qed.

Lemma enabled_positiveFinite : positiveFinite keepAlive -> enabled keepAlive = true.
Proof.
  intros (q & -> & Hq). unfold enabled. simpl. rewrite andb_true_r.
  destruct (Qle_bool q 0) eqn:E; [|reflexivity].
  apply Qle_bool_iff in E. exfalso. exact (Qlt_not_le _ _ Hq E).
Qed.

Lemma enabled_zeroOrNotFinite : zeroOrNotFinite keepAlive -> enabled keepAlive = false.
Proof.
  intros [(q & -> & Hq) | Hnf]; unfold enabled.
  - simpl. rewrite andb_true_r.
    assert (E : Qle_bool q 0 = true).
    { apply Qle_bool_iff. rewrite Hq. apply Qle_refl. }
    rewrite E. reflexivity.
  - rewrite Hnf. apply andb_false_r.
Qed.

Lemma closeOnce_fire c : closeOnce (fire keepAlive c) = closeOnce c.
Proof.
  unfold fire. destruct (timers c) as [|t rest]; [reflexivity|].
  destruct (timerKind t); simpl.
  - unfold onPingInterval. simpl. destruct (isOpen (readyState c)); reflexivity.
  - unfold onPongWait, socketTerminate. simpl. destruct (readyState c); reflexivity.
Qed.

Lemma closeOnce_emitPong c : closeOnce (emitPong c) = closeOnce c.
Proof.
  unfold emitPong. rewrite iter_onPong. simpl.
  destruct (pongOnce c); [reflexivity|].
  unfold onPong. destruct (pongWait c); reflexivity.
Qed.

Lemma closeOnce_step e c : closeOnce c = false -> closeOnce (step e c) = false.
Proof.
  intros Hcl. destruct e; unfold UseWs.step.
  - rewrite closeOnce_fire. exact Hcl.
  - rewrite closeOnce_emitPong. exact Hcl.
  - destruct (errorOnce c); [|exact Hcl].
    destruct (same_onSocketError err (set_errorOnce false c)) as (_ & _ & _ & -> & _).
    exact Hcl.
  - destruct (same_onMessageEvent event thrown c) as (_ & _ & _ & -> & _). exact Hcl.
  - destruct (same_send data written c) as (_ & _ & _ & -> & _). exact Hcl.
  - unfold close.
    destruct (same_socketClose code reason c) as (_ & _ & _ & -> & _). exact Hcl.
  - exact Hcl.
  - rewrite Hcl. exact Hcl.
Qed.

Lemma closed_stays_clear es c :
  Inv c -> closeOnce c = false ->
  timers (run isProd limitCloseReason keepAlive es c) = [].
Proof.
  revert c. induction es as [|e es IH]; intros c HI Hcl; simpl.
  - destruct HI as (_ & Hc & _). exact (Hc Hcl).
  - apply IH; [apply keepAlive_inv_step; exact HI | apply closeOnce_step; exact Hcl].
Qed.

Lemma calls_clearKeepAlive c :
  exists cleared, calls (clearKeepAlive c) = calls c ++ cleared
                  /\ forallb isClear cleared = true.
Proof.
  unfold clearKeepAlive.
  destruct (pongWait c) as [t|] eqn:E1; simpl;
    destruct (pingInterval c) as [i|] eqn:E2; simpl.
  - exists [ClearTimeout t; ClearInterval i]. rewrite <- app_assoc. auto.
  - exists [ClearTimeout t]. auto.
  - exists [ClearInterval i]. auto.
  - exists []. rewrite app_nil_r. auto.
Qed.

(** C9. When the socket's ['close'] is observed, in whatever state the
    connection is (after a graceful close, a terminate or a timeout),
    the handler first clears the timers ([clearTimeout(pongWait)],
    [clearInterval(pingInterval)]; nothing else is called in between),
    so that no timer of the connection is armed when [closed] is called,
    and none is armed ever after. *)
Theorem close_clears_keep_alive_before_closed c code reason :
  reachable c ->
  closeOnce c = true ->
  step (CloseEvent code reason) c
  = log (CoreClosed code reason)
        (clearKeepAlive (set_closeOnce false (set_readyState CLOSED c)))
  /\ timers (clearKeepAlive (set_closeOnce false (set_readyState CLOSED c))) = []
  /\ (exists cleared,
         calls (step (CloseEvent code reason) c)
         = calls c ++ cleared ++ [CoreClosed code reason]
         /\ forallb isClear cleared = true)
  /\ (forall es,
         timers (run isProd limitCloseReason keepAlive es
                     (step (CloseEvent code reason) c)) = []).
Proof.
  intros Hr Hcl. pose proof (keepAlive_reachable_inv c Hr) as HI.
  assert (Hstep : step (CloseEvent code reason) c
                  = log (CoreClosed code reason)
                        (clearKeepAlive (set_closeOnce false (set_readyState CLOSED c)))).
  { unfold UseWs.step. rewrite Hcl. reflexivity. }
  pose proof (keepAlive_inv_step (CloseEvent code reason) c HI) as HI'.
  assert (Hcl' : closeOnce (step (CloseEvent code reason) c) = false).
  { rewrite Hstep. unfold clearKeepAlive. simpl.
    destruct (pongWait c); simpl; destruct (pingInterval c); reflexivity. }
  split; [exact Hstep|]. split.
  - destruct HI' as (_ & Hc & _). specialize (Hc Hcl').
    rewrite Hstep in Hc. exact Hc.
  - split.
    + rewrite Hstep.
      destruct (calls_clearKeepAlive (set_closeOnce false (set_readyState CLOSED c)))
        as (cleared & Hcalls & Hclr).
      exists cleared. split; [|exact Hclr].
      simpl. rewrite Hcalls. simpl. rewrite <- app_assoc. reflexivity.
    + intros es. apply closed_stays_clear; assumption.
Qed.

(** C3. With a positive, finite [keepAlive], the ['connection'] handler
    arms one interval of that delay. On each of its ticks on an OPEN
    socket the adapter arms a one-shot timer of the same delay, listens
    once for ['pong'] and calls [socket.ping()] (a ping frame of the
    transport; nothing is sent as a message), and on a socket that is
    not OPEN it does nothing. A ['pong'] that arrives while the one-shot
    timer is armed clears it, and nothing more; if the timer fires, the
    adapter calls [socket.terminate()] and asks for no close frame. With
    a [keepAlive] that is zero or not finite no timer is ever created. *)
Theorem keep_alive_ping_pong :
  (positiveFinite keepAlive ->
     (pingInterval (onConnection keepAlive) = Some 0%nat
      /\ timers (onConnection keepAlive) = [theInterval keepAlive])
     /\ forall c, reachable c ->
         (forall rest, timers c = theInterval keepAlive :: rest ->
            readyState c = OPEN ->
            calls (step TimerFires c)
            = calls c ++ [SetTimeout (nextTimer c) keepAlive; OncePong; SocketPing]
            /\ pongWait (step TimerFires c) = Some (nextTimer c)
            /\ timers (step TimerFires c)
               = [thePongWait keepAlive (nextTimer c); theInterval keepAlive])
         /\ (forall rest, timers c = theInterval keepAlive :: rest ->
               readyState c <> OPEN ->
               calls (step TimerFires c) = calls c
               /\ timers (step TimerFires c) = [theInterval keepAlive])
         /\ (forall t rest, timers c = thePongWait keepAlive t :: rest ->
               calls (step PongFrame c) = calls c ++ [ClearTimeout t]
               /\ pongWait (step PongFrame c) = None
               /\ timers (step PongFrame c) = [theInterval keepAlive])
         /\ (forall t rest, timers c = thePongWait keepAlive t :: rest ->
               calls (step TimerFires c) = calls c ++ [SocketTerminate]
               /\ timers (step TimerFires c) = [theInterval keepAlive]))
  /\ (zeroOrNotFinite keepAlive ->
        forall c, reachable c ->
          timers c = [] /\ nextTimer c = 0%nat
          /\ pingInterval c = None /\ pongWait c = None).
Proof.
  split.
  - intros Hpos. pose proof (enabled_positiveFinite Hpos) as Hen. split.
    + unfold onConnection. unfold enabled in Hen. rewrite Hen. simpl. auto.
    + intros c Hr. pose proof (keepAlive_reachable_inv c Hr) as (Hw & Hc & Hk).
      destruct Hk as [(Hdis & _) | (_ & Hi & Hn & Hs)]; [congruence|].
      repeat apply conj.
      * intros rest Ht Hrs.
        assert (rest = []) as ->.
        { destruct Hs as [H | [H | (t & _ & H & _)]]; rewrite H in Ht;
            unfold theInterval, thePongWait in Ht; congruence. }
        unfold UseWs.step.
        rewrite (fire_interval_open c [] Ht); [|rewrite Hrs; reflexivity].
        simpl. auto.
      * intros rest Ht Hrs.
        assert (rest = []) as ->.
        { destruct Hs as [H | [H | (t & _ & H & _)]]; rewrite H in Ht;
            unfold theInterval, thePongWait in Ht; congruence. }
        unfold UseWs.step.
        rewrite (fire_interval_not_open c [] Ht);
          [|destruct (readyState c); try reflexivity; congruence].
        simpl. auto.
      * intros t rest Ht.
        destruct Hs as [H | [H | (t' & Hpw & H & Hpo)]];
          rewrite H in Ht; unfold theInterval, thePongWait in Ht;
          try discriminate.
        injection Ht as -> <-.
        pose proof (Hw t Hpw) as Hge.
        unfold UseWs.step, emitPong. rewrite iter_onPong.
        destruct (pongOnce c) as [|n]; [lia|].
        unfold onPong. rewrite Hpw. simpl. rewrite H. simpl.
        rewrite Nat.eqb_refl. simpl.
        destruct t as [|t]; [lia|]. simpl. auto.
      * intros t rest Ht.
        destruct Hs as [H | [H | (t' & Hpw & H & Hpo)]];
          rewrite H in Ht; unfold theInterval, thePongWait in Ht;
          try discriminate.
        injection Ht as -> <-.
        unfold UseWs.step. rewrite (fire_pongWait c t _ H).
        unfold socketTerminate. simpl. destruct (readyState c); simpl; auto.
  - intros Hz c Hr. pose proof (enabled_zeroOrNotFinite Hz) as Hen.
    pose proof (keepAlive_reachable_inv c Hr) as (Hw & Hc & Hk).
    destruct Hk as [(_ & Hi & Hn & Ht) | (Hen' & _)]; [|congruence].
    repeat split; auto.
    destruct (pongWait c) as [t|] eqn:Hpw; [|reflexivity].
    specialize (Hw t eq_refl). lia.
Qed.

End KeepAlive.

Lemma armedConn_step :
  step false shortReason defaultKeepAlive TimerFires (onConnection defaultKeepAlive)
  = armedConn.
Proof. reflexivity. Qed.

Lemma armedConn_reachable : reachable false shortReason defaultKeepAlive armedConn.
Proof. rewrite <- armedConn_step. apply reach_step, reach_connection. Qed.

Lemma close_clears_keep_alive_before_closed_witness :
  reachable false shortReason defaultKeepAlive armedConn
  /\ closeOnce armedConn = true
  /\ timers (step false shortReason defaultKeepAlive (CloseEvent 1006 "") armedConn) = [].
Proof.
  split; [exact armedConn_reachable|]. split; [reflexivity|].
  destruct (close_clears_keep_alive_before_closed
              false shortReason defaultKeepAlive armedConn 1006 ""
              armedConn_reachable eq_refl)
    as (Hstep & Hclear & _).
  rewrite Hstep. exact Hclear.
Defined.

Example close_of_armedConn :
  step false shortReason defaultKeepAlive (CloseEvent 1006 "") armedConn
  = mkConn CLOSED [] 2 1 false true (Some 1%nat) (Some 0%nat)
           [SetInterval 0 defaultKeepAlive; ServerOpened;
            SetTimeout 1 defaultKeepAlive; OncePong; SocketPing;
            ClearTimeout 1; ClearInterval 0; CoreClosed 1006 ""].
Proof. reflexivity. Qed.

Lemma keep_alive_ping_pong_witness :
  positiveFinite defaultKeepAlive
  /\ calls (step false shortReason defaultKeepAlive TimerFires
                 (onConnection defaultKeepAlive))
     = calls (onConnection defaultKeepAlive)
       ++ [SetTimeout 1 defaultKeepAlive; OncePong; SocketPing]
  /\ (calls (step false shortReason defaultKeepAlive PongFrame armedConn)
      = calls armedConn ++ [ClearTimeout 1]
      /\ pongWait (step false shortReason defaultKeepAlive PongFrame armedConn) = None
      /\ timers (step false shortReason defaultKeepAlive PongFrame armedConn)
         = [theInterval defaultKeepAlive])
  /\ (calls (step false shortReason defaultKeepAlive TimerFires armedConn)
      = calls armedConn ++ [SocketTerminate]
      /\ timers (step false shortReason defaultKeepAlive TimerFires armedConn)
         = [theInterval defaultKeepAlive])
  /\ zeroOrNotFinite NInfinity
  /\ timers (onConnection NInfinity) = [].
Proof.
  assert (Hpos : positiveFinite defaultKeepAlive).
  { exists 12000%Q. split; reflexivity. }
  assert (Hz : zeroOrNotFinite NInfinity) by (right; reflexivity).
  destruct (proj1 (keep_alive_ping_pong false shortReason defaultKeepAlive) Hpos)
    as (_ & Hall).
  destruct (Hall armedConn armedConn_reachable) as (_ & _ & Hpong & Hfire).
  split; [exact Hpos|].
  split.
  { destruct (Hall (onConnection defaultKeepAlive)
                   (reach_connection false shortReason defaultKeepAlive))
      as (Htick & _).
    assert (Ht : timers (onConnection defaultKeepAlive)
                 = theInterval defaultKeepAlive :: []) by reflexivity.
    assert (Hrs : readyState (onConnection defaultKeepAlive) = OPEN) by reflexivity.
    destruct (Htick [] Ht Hrs) as (Hcalls & _).
    rewrite Hcalls. reflexivity. }
  split; [exact (Hpong 1%nat [theInterval defaultKeepAlive] eq_refl)|].
  split; [exact (Hfire 1%nat [theInterval defaultKeepAlive] eq_refl)|].
  split; [exact Hz|].
  exact (proj1 (proj2 (keep_alive_ping_pong false shortReason NInfinity) Hz
                  (onConnection NInfinity)
                  (reach_connection false shortReason NInfinity))).
Defined.

End UseWsFacts.

Module ServerFacts.
Import Common Server.

(** *** Subprotocol negotiation: the cases of the test suite *)

Example handleProtocols_set_no :
  handleProtocols (PSet {["not"; "me"]}) = None.
Proof. vm_compute. reflexivity. Qed.

Example handleProtocols_set_longer_token :
  handleProtocols (PSet {["maybe"; "me"; "graphql-transport-wsnah"]}) = None.
Proof. vm_compute. reflexivity. Qed.

Example handleProtocols_set_yes :
  handleProtocols (PSet {["almost"; "next"; "graphql-transport-ws"; "one"]})
  = Some "graphql-transport-ws".
Proof. vm_compute. reflexivity. Qed.

Example handleProtocols_array_empty_string :
  handleProtocols (PArray [""]) = None.
Proof. reflexivity. Qed.

Example handleProtocols_array_yes :
  handleProtocols (PArray ["123"; "graphql-transport-ws"]) = Some "graphql-transport-ws".
Proof. reflexivity. Qed.

Example handleProtocols_string_yes :
  handleProtocols (PString "some, graphql-transport-ws   , other-one,third")
  = Some "graphql-transport-ws".
Proof. reflexivity. Qed.

Example handleProtocols_string_case :
  handleProtocols (PString "no, graphql-TransPort-ws") = None.
Proof. reflexivity. Qed.

Example handleProtocols_others :
  map handleProtocols
      [POther VObject; POther (VNumber (NFinite 123)); POther VNull;
       POther VUndefined; POther VFunction]
  = [None; None; None; None; None].
Proof. reflexivity. Qed.

(** *** Strings: appending, splitting, joining, trimming *)

Local Arguments String.append !_ _ / : simpl nomatch.

Lemma append_nil_r (s : string) : s +:+ "" = s.
Proof. induction s as [|c s IH]; simpl; [reflexivity | f_equal; exact IH]. Qed.

Lemma append_assoc (a b c : string) : (a +:+ b) +:+ c = a +:+ (b +:+ c).
Proof. induction a as [|x a IH]; simpl; [reflexivity | f_equal; exact IH]. Qed.

Lemma split_nonempty sep s : split sep s <> [].
Proof.
  destruct s as [|c s]; simpl; [discriminate|].
  destruct (Ascii.eqb c sep); [discriminate|].
  destruct (split sep s); discriminate.
Qed.

Lemma concat_cons sep piece pieces :
  pieces <> [] ->
  String.concat sep (piece :: pieces) = piece +:+ sep +:+ String.concat sep pieces.
Proof. destruct pieces; [congruence | reflexivity]. Qed.

(** Joining the pieces of a split gives the string back. *)
Lemma concat_split sep s :
  String.concat (String sep "") (split sep s) = s.
Proof.
  induction s as [|c s IH]; simpl; [reflexivity|].
  destruct (Ascii.eqb_spec c sep) as [->|Hne].
  - rewrite concat_cons by apply split_nonempty. simpl. rewrite IH. reflexivity.
  - destruct (split sep s) as [|piece pieces] eqn:E.
    + exfalso. exact (split_nonempty sep s E).
    + destruct pieces as [|piece' pieces].
      * simpl in *. rewrite IH. reflexivity.
      * rewrite concat_cons by discriminate.
        rewrite concat_cons in IH by discriminate.
        rewrite <- IH. reflexivity.
Qed.

(** No piece of a split contains the separator. *)
Lemma split_sepFree sep s :
  Forall (fun piece => sepFree sep piece = true) (split sep s).
Proof.
  induction s as [|c s IH]; simpl.
  - repeat constructor.
  - destruct (Ascii.eqb c sep) eqn:Ec.
    + constructor; [reflexivity | exact IH].
    + destruct (split sep s) as [|piece pieces].
      * repeat constructor. simpl. rewrite Ec. reflexivity.
      * inversion IH as [|? ? Hp Hps]; subst. constructor; [|exact Hps].
        simpl. rewrite Ec, Hp. reflexivity.
Qed.

Lemma split_piece_then_sep sep piece rest :
  sepFree sep piece = true ->
  split sep (piece +:+ String sep rest) = piece :: split sep rest.
Proof.
  induction piece as [|c piece IH]; simpl; intros Hfree.
  - rewrite Ascii.eqb_refl. reflexivity.
  - apply andb_true_iff in Hfree as [Hc Hfree].
    apply negb_true_iff in Hc. rewrite Hc, (IH Hfree). reflexivity.
Qed.

Lemma split_single sep piece :
  sepFree sep piece = true -> split sep piece = [piece].
Proof.
  induction piece as [|c piece IH]; simpl; intros Hfree; [reflexivity|].
  apply andb_true_iff in Hfree as [Hc Hfree].
  apply negb_true_iff in Hc. rewrite Hc, (IH Hfree). reflexivity.
Qed.

(** Splitting a join of separator-free pieces gives the pieces back. *)
Lemma split_concat sep pieces :
  pieces <> [] ->
  Forall (fun piece => sepFree sep piece = true) pieces ->
  split sep (String.concat (String sep "") pieces) = pieces.
Proof.
  induction pieces as [|piece pieces IH]; intros Hne Hall; [congruence|].
  inversion Hall as [|? ? Hp Hps]; subst.
  destruct pieces as [|piece' pieces].
  - simpl. apply split_single, Hp.
  - rewrite concat_cons by discriminate.
    change (String sep "" +:+ String.concat (String sep "") (piece' :: pieces))
      with (String sep (String.concat (String sep "") (piece' :: pieces))).
    rewrite split_piece_then_sep by exact Hp.
    rewrite IH; [reflexivity | discriminate | exact Hps].
Qed.

Lemma trimStart_white before s :
  allWhite before = true -> trimStart (before +:+ s) = trimStart s.
Proof.
  induction before as [|c before IH]; simpl; intros Hw; [reflexivity|].
  apply andb_true_iff in Hw as [Hc Hw]. rewrite Hc. apply IH, Hw.
Qed.

Lemma trimEnd_white after : allWhite after = true -> trimEnd after = "".
Proof.
  induction after as [|c after IH]; simpl; intros Hw; [reflexivity|].
  apply andb_true_iff in Hw as [Hc Hw]. rewrite (IH Hw), Hc. reflexivity.
Qed.

(** A string is its [trimStart] after a run of whitespace. *)
Lemma trimStart_decompose s :
  exists before, allWhite before = true /\ s = before +:+ trimStart s.
Proof.
  induction s as [|c s (before & Hw & Hs)]; simpl.
  - exists "". auto.
  - destruct (isWhite c) eqn:Hc.
    + exists (String c before). simpl. rewrite Hc, Hw. split; [reflexivity|].
      f_equal. exact Hs.
    + exists "". auto.
Qed.

(** A string is its [trimEnd] before a run of whitespace. *)
Lemma trimEnd_decompose s :
  exists after, allWhite after = true /\ s = trimEnd s +:+ after.
Proof.
  induction s as [|c s (after & Hw & Hs)]; simpl.
  - exists "". auto.
  - destruct (trimEnd s) as [|k kept] eqn:E.
    + destruct (isWhite c) eqn:Hc.
      * exists (String c after). simpl. rewrite Hc, Hw. split; [reflexivity|].
        f_equal. exact Hs.
      * exists after. split; [exact Hw|]. simpl. f_equal. exact Hs.
    + exists after. split; [exact Hw|]. simpl. f_equal. exact Hs.
Qed.

Lemma trim_decompose s :
  exists before after,
    allWhite before = true /\ allWhite after = true
    /\ s = before +:+ trim s +:+ after.
Proof.
  destruct (trimStart_decompose s) as (before & Hb & Hs).
  destruct (trimEnd_decompose (trimStart s)) as (after & Ha & Ht).
  exists before, after. repeat split; auto.
  unfold trim. rewrite <- Ht. exact Hs.
Qed.

Lemma trimEnd_cons c s :
  trimEnd (String c s)
  = match trimEnd s with
    | EmptyString => if isWhite c then EmptyString else String c EmptyString
    | kept => String c kept
    end.
Proof. reflexivity. Qed.

(** [trimEnd] gives back a string that it leaves alone, whatever
    whitespace comes after it. *)
Lemma trimEnd_stable_white t after :
  t <> "" -> trimEnd t = t -> allWhite after = true ->
  trimEnd (t +:+ after) = t.
Proof.
  induction t as [|c t IH]; intros Hne Hst Hw; [congruence|].
  change (String c t +:+ after) with (String c (t +:+ after)).
  rewrite trimEnd_cons in Hst |- *.
  destruct t as [|c' t'].
  - change ("" +:+ after) with after. rewrite (trimEnd_white after Hw).
    simpl in Hst. exact Hst.
  - assert (Hst' : trimEnd (String c' t') = String c' t').
    { destruct (trimEnd (String c' t')) as [|k kept].
      - destruct (isWhite c); discriminate.
      - injection Hst as -> ->. reflexivity. }
    rewrite (IH ltac:(discriminate) Hst' Hw). reflexivity.
Qed.

(** Trimming the token between runs of whitespace gives the token. *)
Lemma trim_padded before t after c rest :
  t = String c rest -> isWhite c = false -> trimEnd t = t ->
  allWhite before = true -> allWhite after = true ->
  trim (before +:+ t +:+ after) = t.
Proof.
  intros Ht Hc Hst Hb Ha. unfold trim.
  rewrite (trimStart_white before _ Hb).
  assert (Hstart : trimStart (t +:+ after) = t +:+ after).
  { rewrite Ht. simpl. rewrite Hc. reflexivity. }
  rewrite Hstart. apply trimEnd_stable_white; auto. rewrite Ht. discriminate.
Qed.

(** *** Subprotocol negotiation *)

Lemma token_in_pieces pieces :
  existsb (String.eqb GRAPHQL_TRANSPORT_WS_PROTOCOL) (map trim pieces) = true
  <-> exists before after,
        In (before +:+ GRAPHQL_TRANSPORT_WS_PROTOCOL +:+ after) pieces
        /\ allWhite before = true /\ allWhite after = true.
Proof.
  rewrite existsb_exists. split.
  - intros (trimmed & Hin & Heq). apply String.eqb_eq in Heq. subst trimmed.
    apply in_map_iff in Hin as (piece & Htrim & Hin).
    destruct (trim_decompose piece) as (before & after & Hb & Ha & Hpiece).
    exists before, after. rewrite <- Htrim, <- Hpiece. auto.
  - intros (before & after & Hin & Hb & Ha).
    exists GRAPHQL_TRANSPORT_WS_PROTOCOL. split; [|apply String.eqb_refl].
    apply in_map_iff. exists (before +:+ GRAPHQL_TRANSPORT_WS_PROTOCOL +:+ after).
    split; [|exact Hin].
    apply (trim_padded before GRAPHQL_TRANSPORT_WS_PROTOCOL after
                       "g" "raphql-transport-ws"); auto.
Qed.

Lemma handleProtocols_some_iff protocols :
  handleProtocols protocols = Some GRAPHQL_TRANSPORT_WS_PROTOCOL
  <-> offersToken protocols.
Proof.
  destruct protocols as [members | members | offered | v];
    cbn [handleProtocols offersToken].
  - case_bool_decide; split; intros; try done.
  - destruct (existsb _ members) eqn:E.
    + split; [intros _ | reflexivity].
      apply existsb_exists in E as (x & Hin & Heq).
      apply String.eqb_eq in Heq. subst x. exact Hin.
    + split; [discriminate|]. intros Hin. exfalso.
      assert (existsb (String.eqb GRAPHQL_TRANSPORT_WS_PROTOCOL) members = true).
      { apply existsb_exists. exists GRAPHQL_TRANSPORT_WS_PROTOCOL.
        split; [exact Hin | apply String.eqb_refl]. }
      congruence.
  - destruct (existsb _ (map trim (split "," offered))) eqn:E.
    + split; [intros _ | reflexivity].
      apply token_in_pieces in E as (before & after & Hin & Hb & Ha).
      exists (split "," offered), before, after. repeat split; auto.
      * symmetry. apply (concat_split "," offered).
      * apply split_sepFree.
    + split; [discriminate|].
      intros (pieces & before & after & Hoff & Hfree & Hin & Hb & Ha). exfalso.
      assert (Hne : pieces <> []) by (intros ->; exact Hin).
      pose proof (split_concat "," pieces Hne Hfree) as Hsplit.
      change (String "," "") with ","%string in Hsplit.
      rewrite <- Hoff in Hsplit. rewrite Hsplit in E.
      assert (existsb (String.eqb GRAPHQL_TRANSPORT_WS_PROTOCOL) (map trim pieces)
              = true) by (apply token_in_pieces; eauto).
      congruence.
  - split; [discriminate | contradiction].
Qed.

(** C2. [handleProtocols] answers the token exactly for a set or a list
    of strings that has the token as a member, or a string whose
    comma-separated pieces include the token once surrounding whitespace
    is trimmed; its answer to anything else, whatever its form, is the
    no-match value. *)
Theorem handleProtocols_token_iff_member protocols :
  (handleProtocols protocols = Some GRAPHQL_TRANSPORT_WS_PROTOCOL
   <-> offersToken protocols)
  /\ (~ offersToken protocols <-> handleProtocols protocols = None).
Proof.
  split; [apply handleProtocols_some_iff|].
  rewrite <- handleProtocols_some_iff.
  destruct protocols as [members | members | offered | v];
    cbn [handleProtocols offersToken];
    try (destruct (bool_decide _)); try (destruct (existsb _ _));
    split; intros; try congruence; try reflexivity.
Qed.

Lemma handleProtocols_token_iff_member_witness :
  handleProtocols (PString "some, graphql-transport-ws   , other-one,third")
  = Some "graphql-transport-ws"
  /\ handleProtocols (POther VNull) = None.
Proof.
  split.
  - apply (proj1 (handleProtocols_token_iff_member
                    (PString "some, graphql-transport-ws   , other-one,third"))).
    exists ["some"; " graphql-transport-ws   "; " other-one"; "third"]%string.
    exists " "%string, "   "%string. simpl. repeat split; auto.
  - apply (proj2 (handleProtocols_token_iff_member (POther VNull))).
    simpl. intros [].
Defined.

(** *** The registry *)

Lemma reserve_duplicate id subs :
  is_Some (subs !! id) -> reserve id subs = None.
Proof. intros [entry H]. unfold reserve. rewrite H. reflexivity. Qed.

Lemma reserve_fresh id subs :
  subs !! id = None -> reserve id subs = Some (<[id := Reservation]> subs).
Proof. intros H. unfold reserve. rewrite H. reflexivity. Qed.

Lemma drop_lookup id subs : (drop id subs).1 !! id = None.
Proof. apply lookup_delete_eq. Qed.

Lemma drop_other id id' subs : id <> id' -> (drop id subs).1 !! id' = subs !! id'.
Proof. intros Hne. apply lookup_delete_ne, Hne. Qed.

Lemma drop_reserved id subs :
  subs !! id = None -> (drop id (<[id := Reservation]> subs)).1 = subs.
Proof. intros H. unfold drop. simpl. rewrite delete_insert_eq. apply delete_id, H. Qed.

(** *** The orchestrator *)

Section Orchestrator.
Variable onSubscribe : Context -> string -> string -> option (list string).
Variable hasOnPing hasOnPong : bool.
Variable reasonOf : Thrown -> string.

Local Abbreviation step := (step onSubscribe hasOnPing hasOnPong reasonOf).
Local Abbreviation run := (run onSubscribe hasOnPing hasOnPong reasonOf).
Local Abbreviation reachable := (reachable onSubscribe hasOnPing hasOnPong reasonOf).

Lemma inv_opened : coreInv opened.1.
Proof.
  split; simpl; [discriminate|]. split; [discriminate|].
  intros id [entry H]. rewrite lookup_empty in H. discriminate.
Qed.

Lemma inv_drop id c :
  coreInv c -> coreInv (with_subscriptions (drop id (subscriptions (ctx c))).1 c).
Proof.
  intros (Hack & Hcon & Hsubs). split; simpl; [exact Hack|].
  split; [exact Hcon|].
  intros id' [entry H]. apply lookup_delete_Some in H as [_ H].
  apply (Hsubs id'). eauto.
Qed.

Lemma inv_onInbound m c :
  closed c = false -> coreInv c ->
  coreInv (onInbound onSubscribe hasOnPing hasOnPong m c).1.
Proof.
  intros Hcl HI. pose proof HI as (Hack & Hcon & Hsubs).
  destruct m as [payload | payload | payload | id payload | id]; simpl.
  - destruct (connectionInitReceived (ctx c)) eqn:Hinit; simpl; [exact HI|].
    split; simpl; [reflexivity|]. split; [reflexivity | exact Hsubs].
  - exact HI.
  - exact HI.
  - destruct (acknowledged (ctx c)) eqn:Hak; simpl; [|exact HI].
    unfold reserve.
    destruct (subscriptions (ctx c) !! id) as [entry|] eqn:Hid; simpl;
      [exact HI|].
    destruct (onSubscribe (ctx c) id payload); simpl.
    + split; simpl; [rewrite Hak; exact Hack|]. split; [exact Hcon|].
      intros id' [entry H]. rewrite Hak. split; [reflexivity | first [reflexivity | exact Hcl]].
    + split; simpl; [rewrite Hak; exact Hack|]. split; [exact Hcon|].
      intros id' _. rewrite Hak. split; [reflexivity | first [reflexivity | exact Hcl]].
  - exact (inv_drop id c HI).
Qed.

Lemma core_inv_step e c : coreInv c -> coreInv (step e c).1.
Proof.
  intros HI. pose proof HI as (Hack & Hcon & Hsubs). unfold Server.step.
  destruct (closed c) eqn:Hcl.
  - destruct e as [m | reason | | answer | id producer | id payload | id how
                   | code reason]; simpl; try exact HI.
    exact (inv_drop id c HI).
  - destruct e as [m | reason | | answer | id producer | id payload | id how
                   | code reason]; simpl; try exact HI.
    + apply inv_onInbound; assumption.
    + destruct (connectionInitReceived (ctx c)); exact HI.
    + destruct (connecting c) eqn:Hc; [|exact HI].
      destruct answer as [|payload]; simpl.
      * split; simpl; [exact Hack|]. split; [discriminate|].
        intros id H. destruct (Hsubs id H) as [-> _].
        split; [reflexivity | first [reflexivity | exact Hcl]].
      * split; simpl; [intros _; apply Hcon; reflexivity|].
        split; [discriminate|].
        intros id H. split; [reflexivity | first [reflexivity | exact Hcl]].
    + destruct (subscriptions (ctx c) !! id) as [[|p]|] eqn:Hid; simpl;
        try exact HI.
      split; simpl; [exact Hack|]. split; [exact Hcon|].
      intros id' _. destruct (Hsubs id ltac:(eauto)) as [-> _].
      split; [reflexivity | first [reflexivity | exact Hcl]].
    + exact (inv_drop id c HI).
    + split; simpl; [exact Hack|]. split; [discriminate|].
      intros id [entry H]. rewrite lookup_empty in H. discriminate.
Qed.

(** Every state of a connection satisfies the invariant. *)
Lemma core_reachable_inv c : reachable c -> coreInv c.
Proof.
  induction 1 as [|e c _ IH]; [apply inv_opened | apply core_inv_step, IH].
Qed.

Lemma reachable_run es c : reachable c -> reachable (run es c).1.
Proof.
  revert c. induction es as [|e es IH]; intros c Hr; simpl; [exact Hr|].
  destruct (step e c) as [c1 out1] eqn:E1.
  specialize (IH c1). destruct (run es c1) as [c2 out2]. simpl in *.
  apply IH. replace c1 with (step e c).1 by (rewrite E1; reflexivity).
  apply reach_step, Hr.
Qed.

(** C1. Whatever the state of a connection, a [subscribe] whose id
    already has an entry in the registry (a reservation or a running
    producer) is answered with a close of code 4409 and the reason
    "Subscriber for <id> already exists" and nothing else; the reserve
    fails and the connection, its registry included, is left as it
    was. *)
Theorem duplicate_subscribe_closes_4409 c id payload :
  reachable c ->
  is_Some (subscriptions (ctx c) !! id) ->
  reserve id (subscriptions (ctx c)) = None
  /\ step (Inbound (CSubscribe id payload)) c
     = (c, [Close 4409 ("Subscriber for " +:+ id +:+ " already exists")]).
Proof.
  intros Hr Hsome. split; [apply reserve_duplicate, Hsome|].
  destruct (core_reachable_inv c Hr) as (_ & _ & Hsubs).
  destruct (Hsubs id Hsome) as [Hack Hcl].
  unfold Server.step. rewrite Hcl. simpl. rewrite Hack. simpl.
  rewrite (reserve_duplicate id _ Hsome). reflexivity.
Qed.

Lemma silent_after_drop e id c :
  fromProducer id e ->
  subscriptions (ctx c) !! id = None ->
  sent (step e c).2 = []
  /\ subscriptions (ctx (step e c).1) !! id = None.
Proof.
  intros Hfrom Hnone. unfold Server.step.
  destruct e as [m | reason | | answer | id' producer | id' payload | id' how
                 | code reason]; simpl in Hfrom; try contradiction; subst id'.
  - destruct (closed c); simpl; [auto|].
    rewrite Hnone. rewrite bool_decide_eq_false_2 by (intros [? ?]; discriminate).
    auto.
  - destruct (closed c); simpl.
    + split; [reflexivity | apply lookup_delete_eq].
    + rewrite Hnone.
      rewrite bool_decide_eq_false_2 by (intros [? ?]; discriminate).
      split; [reflexivity | apply lookup_delete_eq].
Qed.

Lemma silent_run es id c :
  Forall (fromProducer id) es ->
  subscriptions (ctx c) !! id = None ->
  sent (run es c).2 = []
  /\ subscriptions (ctx (run es c).1) !! id = None.
Proof.
  intros Hall. revert c. induction Hall as [|e es He _ IH]; intros c Hnone; simpl.
  - auto.
  - destruct (silent_after_drop e id c He Hnone) as [Hs Hn].
    destruct (step e c) as [c1 out1]. simpl in *.
    destruct (IH c1 Hn) as [Hs' Hn'].
    destruct (run es c1) as [c2 out2]. simpl in *.
    split; [|exact Hn'].
    unfold sent in *. rewrite flat_map_app, Hs, Hs'. reflexivity.
Qed.

(** C4. A [complete] from the client for an id whose producer is
    running makes the orchestrator call the producer's [stop], await
    its completion and do nothing else: the entry leaves the registry,
    no message is sent, and whatever the producer does afterwards
    (further [emit] calls, its [start] settling in any way, however
    late) sends nothing either, in particular no [complete]. *)
Theorem client_complete_is_not_answered c id p :
  reachable c ->
  subscriptions (ctx c) !! id = Some (RunningProducer p) ->
  (step (Inbound (CComplete id)) c).2 = [Stop p; AwaitCompletion p]
  /\ subscriptions (ctx (step (Inbound (CComplete id)) c).1) !! id = None
  /\ (forall es, Forall (fromProducer id) es ->
        sent (run es (step (Inbound (CComplete id)) c).1).2 = []
        /\ subscriptions (ctx (run es (step (Inbound (CComplete id)) c).1).1) !! id
           = None).
Proof.
  intros Hr Hrun.
  destruct (core_reachable_inv c Hr) as (_ & _ & Hsubs).
  destruct (Hsubs id ltac:(eauto)) as [Hack Hcl].
  assert (Hstep : step (Inbound (CComplete id)) c
                  = (with_subscriptions (delete id (subscriptions (ctx c))) c,
                     [Stop p; AwaitCompletion p])).
  { unfold Server.step. rewrite Hcl. simpl. rewrite Hrun. reflexivity. }
  rewrite Hstep. simpl.
  split; [reflexivity|]. split; [apply lookup_delete_eq|].
  intros es Hall. apply silent_run; [exact Hall|]. simpl. apply lookup_delete_eq.
Qed.

(** C5. When a producer's [start] rejects, the entry of its id leaves
    the registry in that very step, in every state of the connection:
    whether or not the registry still held the id, whether or not the
    socket is closed, and without any later event (no close of the
    socket has to be observed). The other entries stay. *)
Theorem rejected_start_always_drops c id err :
  subscriptions (ctx (step (StartSettled id (RejectedWith err)) c).1)
  = delete id (subscriptions (ctx c))
  /\ subscriptions (ctx (step (StartSettled id (RejectedWith err)) c).1) !! id = None
  /\ ((forall id', id' <> id -> subscriptions (ctx c) !! id' = None) ->
      subscriptions (ctx (step (StartSettled id (RejectedWith err)) c).1) = ∅).
Proof.
  assert (E : subscriptions (ctx (step (StartSettled id (RejectedWith err)) c).1)
              = delete id (subscriptions (ctx c))).
  { unfold Server.step. destruct (closed c); reflexivity. }
  rewrite E. split; [reflexivity|]. split; [apply lookup_delete_eq|].
  intros Honly. apply map_eq. intros id'. rewrite lookup_empty.
  destruct (decide (id' = id)) as [->|Hne].
  - apply lookup_delete_eq.
  - rewrite lookup_delete_ne by congruence. apply Honly, Hne.
Qed.

End Orchestrator.

(** *** The scenarios of the test suite *)

Lemma preparing_run :
  (run noOnSubscribe false false reasonText firstSubscribe opened.1).1 = preparing.
Proof. vm_compute. reflexivity. Qed.

Lemma preparing_reachable : reachable noOnSubscribe false false reasonText preparing.
Proof. rewrite <- preparing_run. apply reachable_run, reach_opened. Qed.

Lemma streaming_step :
  (step noOnSubscribe false false reasonText (FactoryReturned "not-unique" 7) preparing).1
  = streaming.
Proof. vm_compute. reflexivity. Qed.

Lemma streaming_reachable : reachable noOnSubscribe false false reasonText streaming.
Proof. rewrite <- streaming_step. apply reach_step, preparing_reachable. Qed.

Example duplicate_while_preparing :
  (run noOnSubscribe false false reasonText
       (firstSubscribe ++ [Inbound (CSubscribe "not-unique" "query { getValue }")])
       opened.1).2
  = [CancelInitTimer; CallOnConnect; Send (SConnectionAck None);
     CallFactory "not-unique" "query { getValue }";
     Close 4409 "Subscriber for not-unique already exists"].
Proof. vm_compute. reflexivity. Qed.

Lemma duplicate_subscribe_closes_4409_witness :
  (step noOnSubscribe false false reasonText
        (Inbound (CSubscribe "not-unique" "query { getValue }")) preparing
   = (preparing, [Close 4409 "Subscriber for not-unique already exists"]))
  /\ (step noOnSubscribe false false reasonText
           (Inbound (CSubscribe "not-unique" "subscription { ping }")) streaming
      = (streaming, [Close 4409 "Subscriber for not-unique already exists"])).
Proof.
  split.
  - apply (duplicate_subscribe_closes_4409 noOnSubscribe false false reasonText
             preparing "not-unique" "query { getValue }" preparing_reachable).
    exists Reservation. reflexivity.
  - apply (duplicate_subscribe_closes_4409 noOnSubscribe false false reasonText
             streaming "not-unique" "subscription { ping }" streaming_reachable).
    exists (RunningProducer 7). reflexivity.
Defined.

Lemma client_complete_is_not_answered_witness :
  (step noOnSubscribe false false reasonText (Inbound (CComplete "not-unique"))
        streaming).2
  = [Stop 7; AwaitCompletion 7]
  /\ sent (run noOnSubscribe false false reasonText
               [Emit "not-unique" "pong"; StartSettled "not-unique" ResolvedNothing]
               (step noOnSubscribe false false reasonText
                     (Inbound (CComplete "not-unique")) streaming).1).2
     = [].
Proof.
  destruct (client_complete_is_not_answered noOnSubscribe false false reasonText
              streaming "not-unique" 7 streaming_reachable eq_refl)
    as (Hout & _ & Hlater).
  split; [exact Hout|].
  apply Hlater. repeat constructor.
Defined.

Lemma rejected_start_always_drops_witness :
  subscriptions
    (ctx (step noOnSubscribe false false reasonText
               (StartSettled "not-unique" (RejectedWith (ThrownOther "undefined")))
               streaming).1)
  = ∅.
Proof.
  apply (rejected_start_always_drops noOnSubscribe false false reasonText
           streaming "not-unique" (ThrownOther "undefined")).
  intros id' Hne. simpl. apply lookup_singleton_ne. congruence.
Defined.

(** The test "should clean up subscription reservations on abrupt errors
    without relying on close": init, a subscribe whose producer's [start]
    rejects, and no close of the socket observed. *)
Example rejected_start_scenario :
  subscriptions
    (ctx (run noOnSubscribe false false reasonText
              (handshake ++ [Inbound (CSubscribe "1" "{ getValue }");
                             FactoryReturned "1" 0;
                             StartSettled "1" (RejectedWith (ThrownOther "undefined"))])
              opened.1).1)
  = ∅.
Proof. vm_compute. reflexivity. Qed.

End ServerFacts.

(** ** More on [src/use/ws.ts] *)
Module UseWsMoreFacts.
Import Common UseWs UseWsMore UseWsFacts.

Section Calls.
Variable isProd : bool.
Variable limitCloseReason : string -> string -> string.
Variable keepAlive : JSNumber.

Local Abbreviation step := (step isProd limitCloseReason keepAlive).
Local Abbreviation reachable := (reachable isProd limitCloseReason keepAlive).
Local Abbreviation emitted := (emitted isProd limitCloseReason keepAlive).

(** Every event only adds to the log of calls, and adds what [emitted]
    says. *)
Lemma calls_step e c : calls (step e c) = calls c ++ emitted e c.
Proof.
  destruct e as [| | err | event thrown | data written | code reason | rs
                 | code reason]; unfold UseWs.step, UseWsMore.emitted.
  - unfold fire. destruct (timers c) as [|t rest]; [symmetry; apply app_nil_r|].
    destruct (timerKind t); simpl.
    + unfold onPingInterval. simpl.
      destruct (isOpen (readyState c)); simpl;
        [rewrite <- !app_assoc; reflexivity | symmetry; apply app_nil_r].
    + unfold onPongWait, socketTerminate. simpl.
      destruct (readyState c); reflexivity.
  - unfold emitPong. rewrite iter_onPong. simpl.
    destruct (pongOnce c); [symmetry; apply app_nil_r|].
    unfold onPong. destruct (pongWait c); [reflexivity | symmetry; apply app_nil_r].
  - destruct (errorOnce c); [|symmetry; apply app_nil_r].
    unfold onSocketError. rewrite calls_socketClose. simpl.
    rewrite <- app_assoc. reflexivity.
  - unfold onMessageEvent. destruct thrown as [err|]; [|reflexivity].
    rewrite calls_socketClose. simpl. rewrite <- !app_assoc. reflexivity.
  - unfold send. destruct (isOpen (readyState c)); simpl;
      [reflexivity | symmetry; apply app_nil_r].
  - unfold close. apply calls_socketClose.
  - simpl. symmetry. apply app_nil_r.
  - destruct (closeOnce c); [|simpl; symmetry; apply app_nil_r].
    unfold onClose, clearKeepAlive. simpl.
    destruct (pongWait c); simpl; destruct (pingInterval c); simpl;
      rewrite <- ?app_assoc; reflexivity.
Qed.

(** X3. Terminating and pinging happen only on timer events: the adapter
    calls [socket.terminate()] only when the pong timer fires, and
    [socket.ping()] only when the interval fires on an OPEN socket. *)
Theorem terminate_and_ping_only_from_timers e c added :
  calls (step e c) = calls c ++ added ->
  (In SocketTerminate added ->
     e = TimerFires
     /\ exists t rest, timers c = t :: rest /\ timerKind t = KPongWait)
  /\ (In SocketPing added ->
       e = TimerFires /\ readyState c = OPEN
       /\ exists t rest, timers c = t :: rest /\ timerKind t = KPingInterval).
Proof.
  rewrite calls_step. intros Hadd. apply app_inv_head in Hadd. subst added.
  destruct e as [| | err | event thrown | data written | code reason | rs
                 | code reason]; unfold UseWsMore.emitted.
  - destruct (timers c) as [|t rest]; [split; intros []|].
    destruct (timerKind t) eqn:Hk.
    + destruct (readyState c) eqn:Hrs; simpl; split; intros Hin;
        repeat (destruct Hin as [Hin|Hin]; try discriminate Hin); try contradiction.
      repeat split; eauto.
    + split; intros Hin.
      * split; [reflexivity|]. eauto.
      * destruct Hin as [Hin|[]]; discriminate Hin.
  - destruct (pongOnce c), (pongWait c); split; intros Hin;
      repeat (destruct Hin as [Hin|Hin]; try discriminate Hin); contradiction.
  - destruct (errorOnce c); split; intros Hin;
      repeat (destruct Hin as [Hin|Hin]; try discriminate Hin); contradiction.
  - destruct thrown; split; intros Hin;
      repeat (destruct Hin as [Hin|Hin]; try discriminate Hin); contradiction.
  - destruct (isOpen (readyState c)); split; intros Hin;
      repeat (destruct Hin as [Hin|Hin]; try discriminate Hin); contradiction.
  - split; intros Hin;
      repeat (destruct Hin as [Hin|Hin]; try discriminate Hin); contradiction.
  - split; intros [].
  - destruct (closeOnce c); [|split; intros []].
    destruct (pongWait c), (pingInterval c); split; intros Hin;
      repeat (destruct Hin as [Hin|Hin]; try discriminate Hin); contradiction.
Qed.

(** X5. The adapter asks the socket for a close frame in three situations
    only: the first ['error'] of the socket, a throw out of the message
    callback, and a [close] call of the core. Timers, pongs, sends and the
    ['close'] event never ask for one. *)
Theorem close_frames_of_step e c :
  closeFrames (calls (step e c))
  = closeFrames (calls c)
    ++ match e with
       | ErrorEvent err =>
           if errorOnce c
           then [(4500, internalReason isProd limitCloseReason err)] else []
       | MessageEvent _ (Some err) =>
           [(4500, internalReason isProd limitCloseReason err)]
       | CoreClose code reason => [(code, reason)]
       | _ => []
       end.
Proof.
  rewrite calls_step, closeFrames_app. f_equal.
  destruct e as [| | err | event thrown | data written | code reason | rs
                 | code reason]; unfold UseWsMore.emitted.
  - destruct (timers c) as [|t rest]; [reflexivity|].
    destruct (timerKind t); [|reflexivity].
    destruct (isOpen (readyState c)); reflexivity.
  - destruct (pongOnce c), (pongWait c); reflexivity.
  - destruct (errorOnce c); reflexivity.
  - destruct thrown; reflexivity.
  - destruct (isOpen (readyState c)); reflexivity.
  - reflexivity.
  - reflexivity.
  - destruct (closeOnce c); [|reflexivity].
    destruct (pongWait c), (pingInterval c); reflexivity.
Qed.

(** X6. The adapter writes a frame to the socket only when the core calls
    [send] on an OPEN socket: its own handlers (keep-alive, errors, close)
    never send a message of their own. *)
Theorem sent_frames_of_step e c :
  sentFrames (calls (step e c))
  = sentFrames (calls c)
    ++ match e with
       | CoreSend data _ => if isOpen (readyState c) then [data] else []
       | _ => []
       end.
Proof.
  rewrite calls_step. unfold sentFrames. rewrite flat_map_app. f_equal.
  destruct e as [| | err | event thrown | data written | code reason | rs
                 | code reason]; unfold UseWsMore.emitted.
  - destruct (timers c) as [|t rest]; [reflexivity|].
    destruct (timerKind t); [|reflexivity].
    destruct (isOpen (readyState c)); reflexivity.
  - destruct (pongOnce c), (pongWait c); reflexivity.
  - destruct (errorOnce c); reflexivity.
  - destruct thrown; reflexivity.
  - destruct (isOpen (readyState c)); reflexivity.
  - reflexivity.
  - reflexivity.
  - destruct (closeOnce c); [|reflexivity].
    destruct (pongWait c), (pingInterval c); reflexivity.
Qed.

Lemma closeOnce_step_eq e c :
  closeOnce (step e c)
  = match e with
    | CloseEvent _ _ => false
    | _ => closeOnce c
    end.
Proof.
  destruct e as [| | err | event thrown | data written | code reason | rs
                 | code reason]; unfold UseWs.step.
  - apply closeOnce_fire.
  - apply closeOnce_emitPong.
  - destruct (errorOnce c); [|reflexivity].
    destruct (same_onSocketError isProd limitCloseReason err (set_errorOnce false c))
      as (_ & _ & _ & -> & _). reflexivity.
  - destruct (same_onMessageEvent isProd limitCloseReason event thrown c)
      as (_ & _ & _ & -> & _). reflexivity.
  - destruct (same_send data written c) as (_ & _ & _ & -> & _). reflexivity.
  - unfold close.
    destruct (same_socketClose code reason c) as (_ & _ & _ & -> & _). reflexivity.
  - reflexivity.
  - destruct (closeOnce c) eqn:Hcl; [|exact Hcl].
    unfold onClose, clearKeepAlive. simpl.
    destruct (pongWait c); simpl; destruct (pingInterval c); reflexivity.
Qed.

Lemma occurrences_app p ks1 ks2 :
  occurrences p (ks1 ++ ks2) = (occurrences p ks1 + occurrences p ks2)%nat.
Proof. unfold occurrences. rewrite List.filter_app. apply List.length_app. Qed.

Lemma occurrences_emitted e c :
  occurrences isServerOpened (emitted e c) = 0%nat
  /\ occurrences isCoreClosed (emitted e c)
     = match e with
       | CloseEvent _ _ => if closeOnce c then 1%nat else 0%nat
       | _ => 0%nat
       end.
Proof.
  destruct e as [| | err | event thrown | data written | code reason | rs
                 | code reason]; unfold UseWsMore.emitted.
  - destruct (timers c) as [|t rest]; [split; reflexivity|].
    destruct (timerKind t); [|split; reflexivity].
    destruct (isOpen (readyState c)); split; reflexivity.
  - destruct (pongOnce c), (pongWait c); split; reflexivity.
  - destruct (errorOnce c); split; reflexivity.
  - destruct thrown; split; reflexivity.
  - destruct (isOpen (readyState c)); split; reflexivity.
  - split; reflexivity.
  - split; reflexivity.
  - destruct (closeOnce c); [|split; reflexivity].
    destruct (pongWait c), (pingInterval c); split; reflexivity.
Qed.

(** X7. For every connection, [server.opened] is called exactly once, and the
    [closed] callback it returned is called once when the first ['close']
    is observed and never again. *)
Theorem opened_once_closed_at_most_once c :
  reachable c ->
  occurrences isServerOpened (calls c) = 1%nat
  /\ occurrences isCoreClosed (calls c) = (if closeOnce c then 0%nat else 1%nat).
Proof.
  induction 1 as [|e c _ [IHo IHc]].
  - unfold onConnection.
    destruct (gt0 keepAlive && isFinite keepAlive); split; reflexivity.
  - rewrite calls_step, !occurrences_app, closeOnce_step_eq, IHo, IHc.
    destruct (occurrences_emitted e c) as [-> ->].
    split; [lia|].
    destruct e; try lia. destruct (closeOnce c); reflexivity.
Qed.

(** X4. With keep-alive switched off ([keepAlive] zero or not finite) the
    adapter never pings and never terminates a socket, whatever happens
    to the connection. *)
Theorem no_keep_alive_no_ping_no_terminate c :
  zeroOrNotFinite keepAlive ->
  reachable c ->
  ~ In SocketPing (calls c) /\ ~ In SocketTerminate (calls c).
Proof.
  intros Hz Hr. pose proof (enabled_zeroOrNotFinite keepAlive Hz) as Hen.
  induction Hr as [|e c Hr [IHp IHt]].
  - unfold onConnection. unfold enabled in Hen. rewrite Hen. simpl.
    split; intros [H|[]]; discriminate H.
  - pose proof (keepAlive_reachable_inv isProd limitCloseReason keepAlive c Hr)
      as (_ & _ & Hk).
    destruct Hk as [(_ & _ & _ & Ht) | (Hen' & _)]; [|congruence].
    destruct (terminate_and_ping_only_from_timers e c (emitted e c) (calls_step e c))
      as [Hterm Hping].
    rewrite calls_step. split; intros Hin; apply in_app_or in Hin as [Hin|Hin]; auto.
    + destruct (Hping Hin) as (_ & _ & t & rest & Hts & _). congruence.
    + destruct (Hterm Hin) as (_ & t & rest & Hts & _). congruence.
Qed.

(** X1. At any time a connection has at most two timers armed: its interval
    and at most one pong timer, which is the one [pongWait] holds; both
    have the delay [keepAlive]. No pong timer is ever left behind by a
    later tick. *)
Theorem at_most_one_pong_timer c :
  reachable c ->
  (length (timers c) <= 2)%nat
  /\ (forall t, In t (timers c) -> timerDelay t = keepAlive)
  /\ (forall t, In t (timers c) -> timerKind t = KPongWait ->
        pongWait c = Some (timerId t))
  /\ (forall t, In t (timers c) -> timerKind t = KPingInterval ->
        pingInterval c = Some (timerId t))
  /\ NoDup (map timerId (timers c)).
Proof.
  intros Hr.
  pose proof (keepAlive_reachable_inv isProd limitCloseReason keepAlive c Hr)
    as (Hw & _ & Hk).
  destruct Hk as [(_ & _ & _ & Ht) | (_ & Hi & _ & Hs)].
  - rewrite Ht. simpl.
    split; [lia|]. split; [intros ? []|]. split; [intros ? []|].
    split; [intros ? []|]. apply NoDup_nil_2.
  - destruct Hs as [Ht | [Ht | (t' & Hpw & Ht & _)]]; rewrite Ht; simpl.
    + split; [lia|]. split; [intros ? []|]. split; [intros ? []|].
      split; [intros ? []|]. apply NoDup_nil_2.
    + split; [lia|].
      split; [intros t [<-|[]]; reflexivity|].
      split; [intros t [<-|[]]; discriminate|].
      split; [intros t [<-|[]] _; exact Hi|].
      apply NoDup_cons_2; [rewrite list_elem_of_In; intros [] | apply NoDup_nil_2].
    + pose proof (Hw t' Hpw) as Hge.
      split; [lia|].
      split; [intros t [<-|[<-|[]]]; reflexivity|].
      split; [intros t [<-|[<-|[]]]; [intros _; exact Hpw | discriminate]|].
      split; [intros t [<-|[<-|[]]]; [discriminate | intros _; exact Hi]|].
      apply NoDup_cons_2; [rewrite list_elem_of_In; intros [H|[]]; lia|].
      apply NoDup_cons_2; [rewrite list_elem_of_In; intros [] | apply NoDup_nil_2].
Qed.

Lemma timers_step_nonempty e c :
  keepAliveInv keepAlive c ->
  timers c <> [] ->
  match e with CloseEvent _ _ => False | _ => True end ->
  timers (step e c) <> [].
Proof.
  intros (Hw & Hc & Hk) Hne He.
  destruct e as [| | err | event thrown | data written | code reason | rs
                 | code reason]; unfold UseWs.step; try contradiction.
  - destruct Hk as [(_ & _ & _ & Ht) | (_ & Hi & _ & Hs)]; [congruence|].
    destruct Hs as [Ht | [Ht | (t' & Hpw & Ht & _)]]; [congruence| |].
    + destruct (isOpen (readyState c)) eqn:Hrs.
      * rewrite (fire_interval_open keepAlive c [] Ht Hrs). discriminate.
      * rewrite (fire_interval_not_open keepAlive c [] Ht Hrs). discriminate.
    + rewrite (fire_pongWait keepAlive c t' _ Ht).
      destruct (same_socketTerminate (set_timers [theInterval keepAlive] c))
        as (-> & _). discriminate.
  - unfold emitPong. rewrite iter_onPong. simpl.
    destruct (pongOnce c); [exact Hne|].
    unfold onPong. destruct (pongWait c) as [t|] eqn:Hpw; [|exact Hne].
    pose proof (Hw t eq_refl) as Hge. simpl.
    destruct Hk as [(_ & _ & _ & Ht) | (_ & Hi & _ & Hs)]; [congruence|].
    destruct Hs as [Ht | [Ht | (t' & Hpw' & Ht & _)]]; [congruence| |];
      rewrite Ht; simpl.
    + destruct t as [|t]; [lia|]. discriminate.
    + destruct (negb (t' =? t)%nat); [discriminate|].
      destruct t as [|t]; [lia|]. discriminate.
  - destruct (errorOnce c); [|exact Hne].
    destruct (same_onSocketError isProd limitCloseReason err (set_errorOnce false c))
      as (-> & _). exact Hne.
  - destruct (same_onMessageEvent isProd limitCloseReason event thrown c)
      as (-> & _). exact Hne.
  - destruct (same_send data written c) as (-> & _). exact Hne.
  - unfold close. destruct (same_socketClose code reason c) as (-> & _). exact Hne.
  - exact Hne.
Qed.

(** X2. With a positive, finite [keepAlive] the interval stays armed for as
    long as no ['close'] has been observed: neither a pong, nor a
    terminate, nor an error of the socket stops the pinging. *)
Theorem interval_armed_until_close c :
  positiveFinite keepAlive ->
  reachable c ->
  closeOnce c = true ->
  In (theInterval keepAlive) (timers c).
Proof.
  intros Hpos Hr Hcl. pose proof (enabled_positiveFinite keepAlive Hpos) as Hen.
  assert (Hne : timers c <> []).
  { induction Hr as [|e c Hr IH].
    - unfold onConnection. unfold enabled in Hen. rewrite Hen. discriminate.
    - rewrite closeOnce_step_eq in Hcl.
      apply timers_step_nonempty.
      + apply (keepAlive_reachable_inv isProd limitCloseReason keepAlive c Hr).
      + apply IH. destruct e; try exact Hcl. discriminate.
      + destruct e; try exact I. discriminate. }
  pose proof (keepAlive_reachable_inv isProd limitCloseReason keepAlive c Hr)
    as (_ & _ & Hk).
  destruct Hk as [(_ & _ & _ & Ht) | (_ & _ & _ & Hs)]; [congruence|].
  destruct Hs as [Ht | [Ht | (t' & _ & Ht & _)]]; [congruence| |]; rewrite Ht; simpl; auto.
Qed.

End Calls.

(** X8. Once [close] or [terminate] has been called on the socket, [send]
    hands nothing more to it: whatever the state was before, the socket is
    not OPEN afterwards, so the promise resolves and the data is dropped. *)
Theorem send_after_close_is_dropped data written code reason c :
  send data written (close code reason c) = (Resolved, close code reason c)
  /\ send data written (socketTerminate c) = (Resolved, socketTerminate c).
Proof.
  split; apply send_not_open.
  - unfold close, socketClose.
    destruct (readyState c) eqn:E; simpl; rewrite ?E; discriminate.
  - unfold socketTerminate.
    destruct (readyState c) eqn:E; simpl; rewrite ?E; discriminate.
Qed.

(** *** The socket server *)

Lemma firstThrown_none code reason cs :
  firstThrown code reason cs = None
  <-> Forall (fun cl => closeThrows cl code reason = None) cs.
Proof.
  induction cs as [|cl cs IH]; simpl.
  - split; [constructor | reflexivity].
  - destruct (closeThrows cl code reason) as [e|] eqn:E.
    + split; [discriminate|]. intros H. inversion H; subst. congruence.
    + rewrite IH. split.
      * intros H. constructor; assumption.
      * intros H. inversion H; subst. assumption.
Qed.

(** X9. The ['error'] handler of the socket server ends normally exactly when
    no [client.close] threw; in particular with no client connected it only
    logs the error. *)
Theorem server_error_normal_iff_no_throw
    (isProd : bool) (limitCloseReason : string -> string -> string)
    (err : Thrown) (cs : list Client) :
  snd (onServerError isProd limitCloseReason err cs) = Normal
  <-> Forall (fun cl => closeThrows cl 4500 (internalReason isProd limitCloseReason err)
                        = None) cs.
Proof.
  rewrite onServerError_result, <- firstThrown_none.
  change CloseCode.InternalServerError with 4500.
  destruct (firstThrown 4500 _ cs); split; congruence.
Qed.

Lemma no_once_after_filter ls :
  existsb (fun l => match l with OnceError => true | _ => false end)
          (List.filter (fun l => match l with OnceError => false | _ => true end) ls)
  = false.
Proof.
  induction ls as [|l ls IH]; [reflexivity|].
  destruct l; simpl; exact IH.
Qed.

(** X10. The ['error'] listener of the socket server is registered with
    [once]: after a first ['error'], whatever the server was, a second one
    reaches no handler of the adapter. No client is closed again; the
    event, which has no listener any more, is thrown by the emitter. *)
Theorem server_error_handled_once
    (isProd : bool) (limitCloseReason : string -> string -> string)
    (first second : Thrown) (s : WsServer) :
  emitServerError isProd limitCloseReason second
                  (fst (emitServerError isProd limitCloseReason first s))
  = (fst (emitServerError isProd limitCloseReason first s), unhandled second).
Proof.
  unfold emitServerError at 2 3.
  destruct (existsb _ (listeners s)) eqn:E.
  - destruct (onServerError isProd limitCloseReason first (clients s)) as [made how].
    unfold emitServerError. simpl. rewrite no_once_after_filter. reflexivity.
  - simpl. unfold emitServerError. rewrite E. reflexivity.
Qed.

Lemma goingAway_upto cs :
  goingAway cs
  = (goingAwayCalls (uptoThrow 1001 "Going away" cs),
     firstThrown 1001 "Going away" cs).
Proof.
  induction cs as [|cl cs IH]; simpl; [reflexivity|].
  destruct (closeThrows cl 1001 "Going away"); [reflexivity|].
  rewrite IH. reflexivity.
Qed.

(** X11. [dispose] on any set of clients: it calls [close(1001, 'Going away')]
    on the clients in order up to and including the first whose [close]
    throws. If one throws, the promise rejects with what it threw, the
    listeners are left in place and [ws.close] is not called; otherwise
    the listeners are removed, [ws.close] is called and the promise
    follows its callback. *)
Theorem dispose_stops_at_first_throw closed s :
  serverCalls (fst (dispose closed s))
  = serverCalls s
    ++ goingAwayCalls (uptoThrow 1001 "Going away" (clients s))
    ++ match firstThrown 1001 "Going away" (clients s) with
       | Some _ => []
       | None => [RemoveAllListeners; ServerClose]
       end
  /\ listeners (fst (dispose closed s))
     = match firstThrown 1001 "Going away" (clients s) with
       | Some _ => listeners s
       | None => []
       end
  /\ snd (dispose closed s)
     = match firstThrown 1001 "Going away" (clients s), closed with
       | Some thrown, _ => Rejected thrown
       | None, None => Pending
       | None, Some None => Resolved
       | None, Some (Some e) => Rejected e
       end.
Proof.
  unfold dispose. rewrite goingAway_upto.
  destruct (firstThrown 1001 "Going away" (clients s)); simpl.
  - rewrite app_nil_r. repeat split.
  - repeat split.
Qed.

(** X12. After a [dispose] in which no [close] threw, the adapter no
    longer handles an ['error'] of the socket server
    ([removeAllListeners] took its listener away): no client is closed
    with 4500, and the event, which has no listener, is thrown by the
    emitter. *)
Theorem no_error_handling_after_dispose
    (isProd : bool) (limitCloseReason : string -> string -> string)
    (err : Thrown) closed s :
  firstThrown 1001 "Going away" (clients s) = None ->
  emitServerError isProd limitCloseReason err (fst (dispose closed s))
  = (fst (dispose closed s), unhandled err).
Proof.
  intros Hnone. unfold dispose. rewrite goingAway_upto, Hnone. reflexivity.
Qed.

(** *** The theorems above at concrete connections *)

Lemma terminate_and_ping_only_from_timers_witness :
  calls (step false shortReason defaultKeepAlive TimerFires armedConn)
  = calls armedConn ++ [SocketTerminate]
  /\ exists t rest, timers armedConn = t :: rest /\ timerKind t = KPongWait.
Proof.
  assert (Hcalls : calls (step false shortReason defaultKeepAlive TimerFires armedConn)
                   = calls armedConn ++ [SocketTerminate]) by reflexivity.
  split; [exact Hcalls|].
  apply (proj1 (terminate_and_ping_only_from_timers
                  false shortReason defaultKeepAlive TimerFires armedConn
                  [SocketTerminate] Hcalls)).
  left. reflexivity.
Defined.

Lemma opened_once_closed_at_most_once_witness :
  occurrences isServerOpened (calls armedConn) = 1%nat
  /\ occurrences isCoreClosed (calls armedConn) = 0%nat.
Proof.
  apply (opened_once_closed_at_most_once false shortReason defaultKeepAlive armedConn
           armedConn_reachable).
Defined.

Lemma no_keep_alive_no_ping_no_terminate_witness :
  ~ In SocketPing (calls (onConnection NInfinity))
  /\ ~ In SocketTerminate (calls (onConnection NInfinity)).
Proof.
  apply (no_keep_alive_no_ping_no_terminate false shortReason NInfinity).
  - right. reflexivity.
  - apply reach_connection.
Defined.

Lemma at_most_one_pong_timer_witness :
  (length (timers armedConn) <= 2)%nat
  /\ (forall t, In t (timers armedConn) -> timerDelay t = defaultKeepAlive)
  /\ (forall t, In t (timers armedConn) -> timerKind t = KPongWait ->
        pongWait armedConn = Some (timerId t))
  /\ (forall t, In t (timers armedConn) -> timerKind t = KPingInterval ->
        pingInterval armedConn = Some (timerId t))
  /\ NoDup (map timerId (timers armedConn)).
Proof.
  apply (at_most_one_pong_timer false shortReason defaultKeepAlive armedConn
           armedConn_reachable).
Defined.

Lemma interval_armed_until_close_witness :
  In (theInterval defaultKeepAlive) (timers armedConn).
Proof.
  apply (interval_armed_until_close false shortReason defaultKeepAlive armedConn).
  - exists 12000%Q. split; reflexivity.
  - exact armedConn_reachable.
  - reflexivity.
Defined.

Lemma no_error_handling_after_dispose_witness :
  emitServerError false shortReason (ThrownOther "late")
                  (fst (dispose (Some None) (useServer [soundClient 1; soundClient 2])))
  = (fst (dispose (Some None) (useServer [soundClient 1; soundClient 2])),
     ThrowUnhandled "late").
Proof.
  apply (no_error_handling_after_dispose false shortReason (ThrownOther "late")
           (Some None) (useServer [soundClient 1; soundClient 2])).
  reflexivity.
Defined.

(** *** The reason of a close that reports an internal error *)




Example internal_error_reasons :
  claimedReason false (ThrownError (mkError "boom")) = "boom"%string
  /\ claimedReason false (ThrownOther "42") = "42"%string
  /\ claimedReason false
       (ThrownError (mkError
          "0123456789012345678901234567890123456789012345678901234567890123456789012345678901234567890123456789012345678901234567890123"))
     = "Internal server error"%string
  /\ claimedReason true (ThrownError (mkError "boom")) = "Internal server error"%string.
Proof. repeat split. Qed.

(** *** [dispose] on the sockets of [ws] *)

Lemma wsClient_going_away cs :
  Forall wsClient cs ->
  Forall (fun cl => closeThrows cl 1001 "Going away" = None) cs.
Proof.
  intros Hall. induction Hall as [|cl cs Hcl _ IH]; constructor; [|exact IH].
  apply Hcl; [reflexivity | simpl; lia].
Qed.

Lemma clientCloses_goingAwayCalls cs :
  clientCloses (goingAwayCalls cs)
  = map (fun cl => (clientId cl, 1001, "Going away"%string)) cs.
Proof.
  induction cs as [|cl cs IH]; simpl; [reflexivity|].
  f_equal. exact IH.
Qed.

Lemma strictClient_wsClient id : wsClient (strictClient id).
Proof.
  intros code reason Hcode Hlen. unfold strictClient. simpl.
  rewrite Hcode. apply Nat.leb_le in Hlen. rewrite Hlen. reflexivity.
Qed.

(** C8. On a socket server whose clients are sockets of [ws] (their
    [close] throws only for an invalid code or a reason of more than 123
    bytes, which 1001 and 'Going away' are not), [dispose] calls
    [close(1001, 'Going away')] on every client, then removes all listeners
    of the socket server, then calls [ws.close]; its promise stays pending
    until the callback of [ws.close] runs, resolves when that callback
    reports no error and rejects with the error it reports. *)
Theorem dispose_closes_every_client closed s :
  Forall wsClient (clients s) ->
  serverCalls (fst (dispose closed s))
  = serverCalls s ++ goingAwayCalls (clients s) ++ [RemoveAllListeners; ServerClose]
  /\ clientCloses (goingAwayCalls (clients s))
     = map (fun cl => (clientId cl, 1001, "Going away"%string)) (clients s)
  /\ listeners (fst (dispose closed s)) = []
  /\ snd (dispose closed s)
     = match closed with
       | None => Pending
       | Some None => Resolved
       | Some (Some e) => Rejected e
       end.
Proof.
  intros Hws. pose proof (wsClient_going_away _ Hws) as Hok.
  unfold dispose. rewrite (goingAway_no_throw _ Hok). simpl.
  split; [reflexivity|]. split; [apply clientCloses_goingAwayCalls|].
  split; reflexivity.
Qed.

Lemma dispose_closes_every_client_witness :
  Forall wsClient [strictClient 1; strictClient 2]
  /\ serverCalls (fst (dispose (Some None) (useServer [strictClient 1; strictClient 2])))
     = [ClientClose 1 1001 "Going away"; ClientClose 2 1001 "Going away";
        RemoveAllListeners; ServerClose]
  /\ listeners (fst (dispose (Some None) (useServer [strictClient 1; strictClient 2])))
     = []
  /\ snd (dispose (Some None) (useServer [strictClient 1; strictClient 2])) = Resolved.
Proof.
  assert (Hws : Forall wsClient [strictClient 1; strictClient 2]).
  { repeat constructor; apply strictClient_wsClient. }
  split; [exact Hws|].
  destruct (dispose_closes_every_client
              (Some None) (useServer [strictClient 1; strictClient 2]) Hws)
    as (Hcalls & _ & Hls & Hp).
  split; [exact Hcalls|]. split; [exact Hls | exact Hp].
Defined.

End UseWsMoreFacts.

(** ** The ping fixture *)
Module FixturesFacts.
Import Fixtures.






(** Under a name that every object inherits, a pong sent while the key
    has no listener of its own is not counted: the registries stay as they
    are, and a [next] that follows has to wait. *)
Lemma pong_inherited_name_not_counted key st :
  inheritedName key = true ->
  pongListeners st !! key = None ->
  pong key st = st.
Proof. intros Hin Hnone. unfold pong. rewrite Hnone, Hin. reflexivity. Qed.







End FixturesFacts.
